(** * RandomWalkingSplines: a shallow embedding of the Blender add-on

    The add-on [RandomWalkingSplines.py] draws a batch of random-walk
    curves.  This development embeds its operator class
    ([random_range], [generate_walking_verts], [generate_curve],
    [execute]) and proves the properties its specification states.

    Numbers.  Python floats and the components of [mathutils.Vector] are
    modelled as real numbers [R]: arithmetic is exact, [sin] and [cos]
    are the real functions.  Rounding is therefore not part of the model.

    Libraries the add-on calls.  [random.Random] is Python's generator; it
    is kept abstract ([Host]): a state type, [seed] and [random].
    [mathutils] and [bpy] are Blender's; the parts the operator touches are
    modelled below next to the code that calls them.

    Hidden objects.  Blender's operators [select_all] and [delete] act on
    the objects that are visible in the context.  [execute] is the
    operator in a scene where every object is visible;
    [execute_visible] is the operator with the [hide] attribute of the
    objects taken into account, and the two agree when nothing is hidden
    ([execute_visible_all_visible]). *)

From Stdlib Require Import Reals Lra ZArith String List DecimalString.
From stdpp Require Import base list.
Import ListNotations.

(** ** Libraries of the host *)

(** Python's [random.Random] and Blender's naming of new datablocks.
    - [Random] is the state of one generator object;
    - [Random_seed g n] is the state after [g.seed(n)];
    - [Random_random g] is the float returned by [g.random()] together
      with the state the call leaves behind;
    - [unique_name taken s] is the name Blender gives a new datablock
      asked to be called [s] when [s] is among the names [taken]. *)
Class Host := {
  Random : Type;
  Random_seed : Random -> Z -> Random;
  Random_random : Random -> R * Random;
  unique_name : list string -> string -> string
}.

(** ** mathutils: Vector and Euler *)

Record Vector := mkVector { vx : R; vy : R; vz : R }.

(** [Vector.__add__] *)
Definition Vector_add (a b : Vector) : Vector :=
  mkVector (vx a + vx b) (vy a + vy b) (vz a + vz b).

(** [Euler((x, y, z))]: three angles, rotation order left at its
    default, "XYZ". *)
Record Euler := mkEuler { ex : R; ey : R; ez : R }.

(** A 3x3 matrix as Blender stores it, [m_cr] being [mat[c][r]]
    (column [c], row [r]). *)
Record Matrix3 := mkMatrix3 {
  m00 : R; m01 : R; m02 : R;
  m10 : R; m11 : R; m12 : R;
  m20 : R; m21 : R; m22 : R
}.

(** Blender's [eul_to_mat3], the matrix of an XYZ Euler. *)
Definition eul_to_mat3 (eul : Euler) : Matrix3 :=
  let ci := cos (ex eul) in
  let cj := cos (ey eul) in
  let ch := cos (ez eul) in
  let si := sin (ex eul) in
  let sj := sin (ey eul) in
  let sh := sin (ez eul) in
  let cc := (ci * ch)%R in
  let cs := (ci * sh)%R in
  let sc := (si * ch)%R in
  let ss := (si * sh)%R in
  {| m00 := cj * ch;
     m10 := sj * sc - cs;
     m20 := sj * cc + ss;
     m01 := cj * sh;
     m11 := sj * ss + cc;
     m21 := sj * cs - sc;
     m02 := - sj;
     m12 := cj * si;
     m22 := cj * ci |}%R.

(** Blender's [mul_m3_v3]: the matrix applied to a column vector. *)
Definition mul_m3_v3 (M : Matrix3) (a : Vector) : Vector :=
  {| vx := m00 M * vx a + m10 M * vy a + m20 M * vz a;
     vy := m01 M * vx a + m11 M * vy a + m21 M * vz a;
     vz := m02 M * vx a + m12 M * vy a + m22 M * vz a |}%R.

(** [Vector.rotate(Euler)]: the vector the call leaves in place of
    [v]. *)
Definition Vector_rotate (v : Vector) (e : Euler) : Vector :=
  mul_m3_v3 (eul_to_mat3 e) v.

(** The rotations about one fixed axis, used to state what
    [Vector_rotate] computes. *)
Definition rot_x (t : R) (v : Vector) : Vector :=
  {| vx := vx v;
     vy := cos t * vy v - sin t * vz v;
     vz := sin t * vy v + cos t * vz v |}%R.

Definition rot_y (t : R) (v : Vector) : Vector :=
  {| vx := cos t * vx v + sin t * vz v;
     vy := vy v;
     vz := - sin t * vx v + cos t * vz v |}%R.

Definition rot_z (t : R) (v : Vector) : Vector :=
  {| vx := cos t * vx v - sin t * vy v;
     vy := sin t * vx v + cos t * vy v;
     vz := vz v |}%R.

(** The composition about the fixed axes, X first, then Y, then Z. *)
Definition extrinsic_xyz (a b c : R) (v : Vector) : Vector :=
  rot_z c (rot_y b (rot_x a v)).

(** The composition the specification names: intrinsic, axis order X,
    then Y, then Z.  Each rotation is about an axis of the frame that the
    earlier ones have already turned, which on a column vector is the
    product [Rx * Ry * Rz]. *)
Definition intrinsic_xyz (a b c : R) (v : Vector) : Vector :=
  rot_x a (rot_y b (rot_z c v)).

Definition Vector_sub (a b : Vector) : Vector :=
  mkVector (vx a - vx b) (vy a - vy b) (vz a - vz b).

Definition length_squared (v : Vector) : R :=
  (vx v * vx v + vy v * vy v + vz v * vz v)%R.

(** [Vector.length] *)
Definition Vector_length (v : Vector) : R := sqrt (length_squared v).

(** [for i in range(0, n)]: the body run [n] times. *)
Fixpoint for_range {S : Type} (n : nat) (body : S -> S) (s : S) : S :=
  match n with
  | O => s
  | Datatypes.S k => for_range k body (body s)
  end.

(** ** The operator *)

Section Operator.
Context `{Host}.

(** The properties of the panel and the [prng] attribute. *)
Record Operator := mkOperator {
  randomSeed : Z;
  numCurves : Z;
  pathLength : Z;
  minMove : R;
  maxMove : R;
  prng : Random
}.

Definition set_prng (self : Operator) (g : Random) : Operator :=
  {| randomSeed := randomSeed self;
     numCurves := numCurves self;
     pathLength := pathLength self;
     minMove := minMove self;
     maxMove := maxMove self;
     prng := g |}.

(** [random_range(self, min, max)]: the float returned, and the
    operator with its generator advanced by one draw. *)
Definition random_range (self : Operator) (min max : R) : R * Operator :=
  let (u, g) := Random_random (prng self) in
  ((min + (u * (max - min)))%R, set_prng self g).

(** A vertex as the add-on keeps it: a tuple [(x, y, z)]. *)
Definition vert : Type := (R * R * R)%type.

Definition vert_of (v : Vector) : vert := (vx v, vy v, vz v).
Definition Vector_of (p : vert) : Vector :=
  let '(x, y, z) := p in mkVector x y z.

(** The local variables of [generate_walking_verts] that its loop
    reads and writes, with [self]. *)
Record walk_state := mkWalk {
  w_self : Operator;
  verts : list vert;
  lastPos : Vector;
  moveVec : Vector
}.

(** The body of the loop of [generate_walking_verts]. *)
Definition walk_body (st : walk_state) : walk_state :=
  let self := w_self st in
  let (a, self1) := random_range self (minMove self) (maxMove self) in
  let (b, self2) := random_range self1 (minMove self1) (maxMove self1) in
  let (c, self3) := random_range self2 (minMove self2) (maxMove self2) in
  let moveVec' := Vector_rotate (moveVec st) (mkEuler a b c) in
  let lastPos' := Vector_add (lastPos st) moveVec' in
  {| w_self := self3;
     verts := verts st ++ [(vx lastPos', vy lastPos', vz lastPos')];
     lastPos := lastPos';
     moveVec := moveVec' |}.

(** The state on entry to the loop. *)
Definition walk_init (self : Operator) : walk_state :=
  {| w_self := self;
     verts := [(0, 0, 0)%R];
     lastPos := mkVector 0 0 0;
     moveVec := mkVector 0 0 (1 / 10) |}.

(** [generate_walking_verts(self, pathLength)]: the list returned, and
    the operator with its generator advanced. *)
Definition generate_walking_verts (self : Operator) (pathLength : Z)
  : list vert * Operator :=
  let pathLength := if (pathLength <? 1)%Z then 1%Z else pathLength in
  let st := for_range (Z.to_nat (pathLength - 1)) walk_body (walk_init self) in
  (verts st, w_self st).

End Operator.

(** ** bpy: the data of the host that the operator reads and writes *)

(** The [co] of a spline point: [(x, y, z, w)]. *)
Definition co4 : Type := (R * R * R * R)%type.

(** The [co] of a point that no one has written yet: Blender allocates
    spline points zeroed. *)
Definition BPoint_default : co4 := (0, 0, 0, 0)%R.

Record Spline := mkSpline {
  sp_type : string;
  points : list co4
}.

(** A curve datablock, with the settings [generate_curve] writes. *)
Record Curve := mkCurve {
  cu_name : string;
  dimensions : string;
  resolution_u : Z;
  bevel_depth : R;
  bevel_resolution : Z;
  fill_mode : string;
  splines : list Spline;
  cu_materials : list string
}.

(** An object of [bpy.data.objects].  [ob_id] is its identity (the
    Python reference), [ob_data] is [None] for an empty, [ob_parent] is
    the identity of the parent. *)
Record Object := mkObject {
  ob_id : nat;
  ob_name : string;
  ob_data : option Curve;
  ob_parent : option nat;
  ob_select : bool
}.

(** What the operator sees of [bpy]: [bpy.data.objects] in the order the
    objects were made, the names held in [bpy.data.curves] and
    [bpy.data.materials], the objects linked to [bpy.context.scene], the
    active object, and the identity the next new object gets. *)
Record Bpy := mkBpy {
  objects : list Object;
  curves : list string;
  materials : list string;
  scene_objects : list nat;
  scene_active : option nat;
  next_id : nat
}.

(** The name a new datablock gets: the one asked for when it is free. *)
Definition new_name `{Host} (taken : list string) (name : string) : string :=
  if existsb (String.eqb name) taken then unique_name taken name else name.

(** [bpy.data.objects.get(name)] *)
Definition objects_get (b : Bpy) (name : string) : option nat :=
  option_map ob_id (find (fun o => String.eqb (ob_name o) name) (objects b)).

(** [bpy.data.objects.new(name, data)] *)
Definition objects_new `{Host} (b : Bpy) (name : string) (data : option Curve)
  : nat * Bpy :=
  let o := {| ob_id := next_id b;
              ob_name := new_name (map ob_name (objects b)) name;
              ob_data := data;
              ob_parent := None;
              ob_select := false |} in
  (next_id b,
   {| objects := objects b ++ [o];
      curves := curves b;
      materials := materials b;
      scene_objects := scene_objects b;
      scene_active := scene_active b;
      next_id := S (next_id b) |}).

Definition set_objects (b : Bpy) (os : list Object) : Bpy :=
  {| objects := os;
     curves := curves b;
     materials := materials b;
     scene_objects := scene_objects b;
     scene_active := scene_active b;
     next_id := next_id b |}.

(** A write to one attribute of the object [id]. *)
Definition update_object (b : Bpy) (id : nat) (f : Object -> Object) : Bpy :=
  set_objects b (map (fun o => if Nat.eqb (ob_id o) id then f o else o) (objects b)).

(** [obj.select = v] *)
Definition set_select (v : bool) (o : Object) : Object :=
  {| ob_id := ob_id o; ob_name := ob_name o; ob_data := ob_data o;
     ob_parent := ob_parent o; ob_select := v |}.

(** [obj.parent = p] *)
Definition set_parent (p : option nat) (o : Object) : Object :=
  {| ob_id := ob_id o; ob_name := ob_name o; ob_data := ob_data o;
     ob_parent := p; ob_select := ob_select o |}.

(** [scene.objects.link(obj)] *)
Definition scene_link (b : Bpy) (id : nat) : Bpy :=
  {| objects := objects b;
     curves := curves b;
     materials := materials b;
     scene_objects := scene_objects b ++ [id];
     scene_active := scene_active b;
     next_id := next_id b |}.

(** [scene.objects.active = obj] *)
Definition set_active (b : Bpy) (id : nat) : Bpy :=
  {| objects := objects b;
     curves := curves b;
     materials := materials b;
     scene_objects := scene_objects b;
     scene_active := Some id;
     next_id := next_id b |}.

(** [bpy.ops.object.select_all(action = "DESELECT")], every object being
    visible. *)
Definition select_all_DESELECT (b : Bpy) : Bpy :=
  set_objects b (map (set_select false) (objects b)).

(** [obj.children]: the objects whose parent is [id]. *)
Definition is_child_of (id : nat) (o : Object) : bool :=
  match ob_parent o with
  | Some p => Nat.eqb p id
  | None => false
  end.

Definition children (b : Bpy) (id : nat) : list Object :=
  List.filter (is_child_of id) (objects b).

(** [bpy.ops.object.delete()], every object being visible: every selected
    object leaves the scene and [bpy.data.objects]; an object that loses
    its parent this way is left without one. *)
Definition object_delete (b : Bpy) : Bpy :=
  let gone := map ob_id (List.filter ob_select (objects b)) in
  let dead id := existsb (Nat.eqb id) gone in
  let unparent o :=
    match ob_parent o with
    | Some p => if dead p then set_parent None o else o
    | None => o
    end in
  {| objects := map unparent (List.filter (fun o => negb (ob_select o)) (objects b));
     curves := curves b;
     materials := materials b;
     scene_objects := List.filter (fun id => negb (dead id)) (scene_objects b);
     scene_active :=
       match scene_active b with
       | Some a => if dead a then None else Some a
       | None => None
       end;
     next_id := next_id b |}.

(** The two operators as Blender runs them, on the objects visible in
    the context.  [hide i] is the [hide] attribute of the object of
    identity [i].  [select_all] leaves a hidden object as it is, [delete]
    takes the objects that are selected and visible. *)
Definition select_all_DESELECT_visible (hide : nat -> bool) (b : Bpy) : Bpy :=
  set_objects b
    (map (fun o => if hide (ob_id o) then o else set_select false o) (objects b)).

Definition object_delete_visible (hide : nat -> bool) (b : Bpy) : Bpy :=
  let taken o := ob_select o && negb (hide (ob_id o)) in
  let gone := map ob_id (List.filter taken (objects b)) in
  let dead id := existsb (Nat.eqb id) gone in
  let unparent o :=
    match ob_parent o with
    | Some p => if dead p then set_parent None o else o
    | None => o
    end in
  {| objects := map unparent (List.filter (fun o => negb (taken o)) (objects b));
     curves := curves b;
     materials := materials b;
     scene_objects := List.filter (fun id => negb (dead id)) (scene_objects b);
     scene_active :=
       match scene_active b with
       | Some a => if dead a then None else Some a
       | None => None
       end;
     next_id := next_id b |}.

(** [bpy.data.curves.new(name, type="CURVE")]: the name the new datablock
    gets, and [bpy] with that name recorded. *)
Definition curves_new `{Host} (b : Bpy) (name : string) : string * Bpy :=
  let nm := new_name (curves b) name in
  (nm,
   {| objects := objects b;
      curves := curves b ++ [nm];
      materials := materials b;
      scene_objects := scene_objects b;
      scene_active := scene_active b;
      next_id := next_id b |}).

(** [bpy.data.materials.get(name)] *)
Definition materials_get (b : Bpy) (name : string) : option string :=
  find (String.eqb name) (materials b).

(** [bpy.data.materials.new(name=name)] *)
Definition materials_new `{Host} (b : Bpy) (name : string) : string * Bpy :=
  let nm := new_name (materials b) name in
  (nm,
   {| objects := objects b;
      curves := curves b;
      materials := materials b ++ [nm];
      scene_objects := scene_objects b;
      scene_active := scene_active b;
      next_id := next_id b |}).

(** [str(n)] for a Python int. *)
Definition str (n : Z) : string :=
  DecimalString.NilZero.string_of_int (Z.to_int n).

(** [enumerate(l)] *)
Fixpoint enumerate_from {A : Type} (i : nat) (l : list A) : list (nat * A) :=
  match l with
  | [] => []
  | x :: l' => (i, x) :: enumerate_from (S i) l'
  end.

Definition enumerate {A : Type} (l : list A) : list (nat * A) :=
  enumerate_from 0 l.

(** ** The operator and bpy *)

Section Execute.
Context `{Host}.

(** The loop [for i, coord in enumerate(verts)] of [generate_curve]:
    [polyline.points[i].co = (x, y, z, 1)].  The index is always within
    the points ([copy_verts_in_range] below), the case in which Python
    would raise does not arise. *)
Definition copy_verts (pts : list co4) (verts : list vert) : list co4 :=
  fold_left
    (fun (pts : list co4) (ic : nat * vert) =>
       let '(i, (x, y, z)) := ic in <[i := (x, y, z, 1%R)]> pts)
    (enumerate verts) pts.

(** The points of the spline [generate_curve] builds from [verts]:
    [splines.new] gives a spline of one point, [points.add(len(verts))]
    appends as many as there are vertices, the loop then writes the
    vertices. *)
Definition polyline_points (verts : list vert) : list co4 :=
  let pts := [BPoint_default] in
  let pts := pts ++ repeat BPoint_default (length verts) in
  copy_verts pts verts.

(** [if curveObj.data.materials: materials[0] = mat
     else: materials.append(mat)] *)
Definition put_material (ms : list string) (mat : string) : list string :=
  match ms with
  | [] => ms ++ [mat]
  | _ :: rest => mat :: rest
  end.

(** [generate_curve(self, pathLength, curveCount)]: the new object, the
    operator with its generator advanced, and [bpy] after the call.  The
    curve datablock is referred to by the one object made here, so it is
    kept in the object, with the attributes the function assigns to it
    one after the other written at once. *)
Definition generate_curve (self : Operator) (b : Bpy)
    (pathLength : Z) (curveCount : Z) : nat * Operator * Bpy :=
  let (verts, self) := generate_walking_verts self pathLength in
  let (cu, b) :=
    curves_new b ("random-walking-curve-" ++ str curveCount)%string in
  let polyline := mkSpline "NURBS" (polyline_points verts) in
  let (mat, b) :=
    match materials_get b "CurveMaterial" with
    | Some m => (m, b)
    | None => materials_new b "GeneratedCurveMaterial"
    end in
  let curveData :=
    {| cu_name := cu;
       dimensions := "3D";
       resolution_u := 2;
       bevel_depth := 1 / 100;
       bevel_resolution := 8;
       fill_mode := "FULL";
       splines := [polyline];
       cu_materials := put_material [] mat |} in
  let (curveObj, b) :=
    objects_new b ("random-walking-curve-" ++ str curveCount)%string
                (Some curveData) in
  let b := scene_link b curveObj in
  let b := update_object b curveObj (set_select true) in
  (curveObj, self, b).

(** What the loop of [execute] reads and writes. *)
Record exec_state := mkExec {
  e_self : Operator;
  e_bpy : Bpy;
  e_curveCount : Z
}.

(** The body of the loop of [execute]. *)
Definition execute_body (empty : nat) (st : exec_state) : exec_state :=
  let '(curve, self, b) :=
    generate_curve (e_self st) (e_bpy st)
                   (pathLength (e_self st)) (e_curveCount st) in
  {| e_self := self;
     e_bpy := update_object b curve (set_parent (Some empty));
     e_curveCount := e_curveCount st + 1 |}.

(** [self.prng = random.Random(); self.prng.seed(self.randomSeed)].
    [fresh] is the generator [random.Random()] returns, which Python
    seeds from the operating system. *)
Definition seed_prng (self : Operator) (fresh : Random) : Operator :=
  let self := set_prng self fresh in
  set_prng self (Random_seed (prng self) (randomSeed self)).

(** The first half of [execute]: the container found or made, its
    children deleted, the container selected and active. *)
Definition prepare_empty (b : Bpy) : nat * Bpy :=
  let (empty, b) :=
    match objects_get b "RandomWalkingSplines" with
    | None =>
        let (empty, b) := objects_new b "RandomWalkingSplines" None in
        (empty, scene_link b empty)
    | Some empty =>
        let b := select_all_DESELECT b in
        let b := fold_left
                   (fun b child => update_object b (ob_id child) (set_select true))
                   (children b empty) b in
        (empty, object_delete b)
    end in
  let b := update_object b empty (set_select true) in
  (empty, set_active b empty).

(** [execute(self, context)]: the operator and [bpy] when it returns
    [{"FINISHED"}]. *)
Definition execute (self : Operator) (fresh : Random) (b : Bpy)
  : Operator * Bpy :=
  let curveCount := 0%Z in
  let self := seed_prng self fresh in
  let (empty, b) := prepare_empty b in
  let st := for_range (Z.to_nat (numCurves self)) (execute_body empty)
                      {| e_self := self; e_bpy := b; e_curveCount := curveCount |} in
  (e_self st, e_bpy st).

(** [execute] with hidden objects: the same code, the two operators
    acting on the visible objects only.  [child.select = True] sets the
    flag of a hidden child as of any other; the objects the run makes are
    visible. *)
Definition prepare_empty_visible (hide : nat -> bool) (b : Bpy) : nat * Bpy :=
  let (empty, b) :=
    match objects_get b "RandomWalkingSplines" with
    | None =>
        let (empty, b) := objects_new b "RandomWalkingSplines" None in
        (empty, scene_link b empty)
    | Some empty =>
        let b := select_all_DESELECT_visible hide b in
        let b := fold_left
                   (fun b child => update_object b (ob_id child) (set_select true))
                   (children b empty) b in
        (empty, object_delete_visible hide b)
    end in
  let b := update_object b empty (set_select true) in
  (empty, set_active b empty).

Definition execute_visible (hide : nat -> bool)
    (self : Operator) (fresh : Random) (b : Bpy) : Operator * Bpy :=
  let curveCount := 0%Z in
  let self := seed_prng self fresh in
  let (empty, b) := prepare_empty_visible hide b in
  let st := for_range (Z.to_nat (numCurves self)) (execute_body empty)
                      {| e_self := self; e_bpy := b; e_curveCount := curveCount |} in
  (e_self st, e_bpy st).

(** ** What a run leaves in the scene *)

(** The point sequences of the splines of an object. *)
Definition object_points (o : Object) : list (list co4) :=
  match ob_data o with
  | Some c => map points (splines c)
  | None => []
  end.

(** The container of the batch, and the point sequences of the objects
    under it, in the order the objects were made. *)
Definition container (b : Bpy) : option nat :=
  objects_get b "RandomWalkingSplines".


(** The specification's [generate(params)]: the paths of one batch, from
    one generator that is seeded once and then passed from path to
    path. *)
Fixpoint generate_from (n : nat) (self : Operator) : list (list vert) * Operator :=
  match n with
  | O => ([], self)
  | S k =>
      let (path, self) := generate_walking_verts self (pathLength self) in
      let (rest, self) := generate_from k self in
      (path :: rest, self)
  end.

Definition generate (self : Operator) (fresh : Random) : list (list vert) :=
  fst (generate_from (Z.to_nat (numCurves self)) (seed_prng self fresh)).

(** The specification's step of the walk, with the rotation read as it
    is worded: intrinsic, axis order X, Y, Z. *)
Definition spec_walk_body (st : walk_state) : walk_state :=
  let self := w_self st in
  let (a, self1) := random_range self (minMove self) (maxMove self) in
  let (b, self2) := random_range self1 (minMove self1) (maxMove self1) in
  let (c, self3) := random_range self2 (minMove self2) (maxMove self2) in
  let moveVec' := intrinsic_xyz a b c (moveVec st) in
  let lastPos' := Vector_add (lastPos st) moveVec' in
  {| w_self := self3;
     verts := verts st ++ [(vx lastPos', vy lastPos', vz lastPos')];
     lastPos := lastPos';
     moveVec := moveVec' |}.

(** The steps of a path: the differences of consecutive points. *)
Fixpoint steps (path : list vert) : list Vector :=
  match path with
  | p :: (q :: _) as rest => Vector_sub (Vector_of q) (Vector_of p) :: steps rest
  | _ => []
  end.

(** Blender's guarantees on [bpy.data.objects]: identities are those
    handed out so far, no two objects share one, and a parent is an
    object handed out earlier that is not the object itself. *)
Record wf_bpy (b : Bpy) : Prop := {
  wf_ids : Forall (fun o => ob_id o < next_id b) (objects b);
  wf_nodup : List.NoDup (map ob_id (objects b));
  wf_parent : Forall (fun o => forall p, ob_parent o = Some p ->
                               p < next_id b /\ p <> ob_id o) (objects b)
}.

End Execute.

(** ** Notions used to state the properties *)

Section Notions.
Context `{Host}.

(** The three draws of one turn of the loop, in the order Python
    evaluates the arguments of the tuple. *)
Definition draw1 (g : Random) : R := fst (Random_random g).
Definition after1 (g : Random) : Random := snd (Random_random g).
Definition draw2 (g : Random) : R := draw1 (after1 g).
Definition after2 (g : Random) : Random := after1 (after1 g).
Definition draw3 (g : Random) : R := draw1 (after2 g).
Definition after3 (g : Random) : Random := after1 (after2 g).

(** [min + u * (max - min)] *)
Definition angle (self : Operator) (u : R) : R :=
  (minMove self + u * (maxMove self - minMove self))%R.

(** The last vertex is the current position. *)
Definition at_lastPos (st : walk_state) : Prop :=
  exists l, verts st = l ++ [vert_of (lastPos st)].

(** The [co] written for a vertex. *)
Definition co_of (v : vert) : co4 := let '(x, y, z) := v in (x, y, z, 1%R).

(** The objects that [execute] selects before it deletes: those that
    share their identity with a child of the container. *)
Definition doomed (b : Bpy) (e : nat) (o : Object) : bool :=
  existsb (fun c => Nat.eqb (ob_id o) (ob_id c))
          (children (select_all_DESELECT b) e).

(** What a write to an object by [execute] may change: the parent (to
    nothing) and the selection. *)
Definition touched (o o' : Object) : Prop :=
  ob_id o' = ob_id o /\ ob_name o' = ob_name o /\ ob_data o' = ob_data o
  /\ (ob_parent o' = ob_parent o \/ ob_parent o' = None).


(** The vertex read back from the [co] of a spline point. *)
Definition xyz_of (c : co4) : vert := let '(x, y, z, _) := c in (x, y, z).


(** The identities of the objects a run deletes when every object is
    visible: the children of the container. *)
Definition deleted_ids (b : Bpy) : list nat :=
  match container b with
  | Some e => map ob_id (children b e)
  | None => []
  end.

(** The parent an object is left with when the objects [gone] are
    deleted. *)
Definition parent_after (gone : list nat) (o : Object) : option nat :=
  match ob_parent o with
  | Some p => if existsb (Nat.eqb p) gone then None else Some p
  | None => None
  end.

End Notions.

(** ** A small host to run the operator on

    A generator whose state is a counter: [seed] sets the counter, a draw
    returns 0 on an even count and 1/2 on an odd one.  New names that
    clash get a suffix. *)
Definition toy_random (g : nat) : R * nat :=
  ((if Nat.even g then 0 else 1 / 2)%R, S g).

Definition toy_host : Host :=
  {| Random := nat;
     Random_seed := fun _ n => Z.to_nat n;
     Random_random := toy_random;
     unique_name := fun _ s => (s ++ ".001")%string |}.

(** The operator with the defaults of its panel. *)
Definition toy_operator : @Operator toy_host :=
  @mkOperator toy_host 0 30 128 (1 / 10) 2 O.

(** An operator whose two wander bounds are both [w]. *)
Definition fixed_wander (w : R) (len : Z) : @Operator toy_host :=
  @mkOperator toy_host 0 1 len w w O.

(** A scene with a container and one object under it, and a scene with
    nothing in it. *)
Definition toy_scene : Bpy :=
  {| objects :=
       [ {| ob_id := 0; ob_name := "RandomWalkingSplines"; ob_data := None;
            ob_parent := None; ob_select := false |};
         {| ob_id := 1; ob_name := "Cube"; ob_data := None;
            ob_parent := Some 0; ob_select := true |} ];
     curves := [];
     materials := [];
     scene_objects := [0; 1];
     scene_active := Some 1;
     next_id := 2 |}.


(** A scene with the container and a hidden object under it, and the
    [hide] attributes of that scene. *)
Definition hidden_child_scene : Bpy :=
  {| objects :=
       [ {| ob_id := 0; ob_name := "RandomWalkingSplines"; ob_data := None;
            ob_parent := None; ob_select := false |};
         {| ob_id := 1; ob_name := "Cube"; ob_data := None;
            ob_parent := Some 0; ob_select := false |} ];
     curves := [];
     materials := [];
     scene_objects := [0; 1];
     scene_active := None;
     next_id := 2 |}.

Definition hide_cube (i : nat) : bool := Nat.eqb i 1.

(** A scene with the container, a cube under it, a shade under the cube,
    and a lamp with a bulb under it. *)
Definition lamp_scene : Bpy :=
  {| objects :=
       [ {| ob_id := 0; ob_name := "RandomWalkingSplines"; ob_data := None;
            ob_parent := None; ob_select := false |};
         {| ob_id := 1; ob_name := "Cube"; ob_data := None;
            ob_parent := Some 0; ob_select := false |};
         {| ob_id := 2; ob_name := "Lamp"; ob_data := None;
            ob_parent := None; ob_select := true |};
         {| ob_id := 3; ob_name := "Bulb"; ob_data := None;
            ob_parent := Some 2; ob_select := false |};
         {| ob_id := 4; ob_name := "Shade"; ob_data := None;
            ob_parent := Some 1; ob_select := false |} ];
     curves := [];
     materials := [];
     scene_objects := [0; 1; 2; 3; 4];
     scene_active := Some 2;
     next_id := 5 |}.


(** [generate_walking_verts] with the specification's step in place of
    the code's. *)
Definition spec_generate_walking_verts `{Host} (self : Operator) (pathLength : Z)
  : list vert * Operator :=
  let pathLength := if (pathLength <? 1)%Z then 1%Z else pathLength in
  let st := for_range (Z.to_nat (pathLength - 1)) spec_walk_body (walk_init self) in
  (verts st, w_self st).

(** * Proofs *)

(** ** Vectors and rotations *)

Lemma Vector_eq (a b : Vector) :
  vx a = vx b -> vy a = vy b -> vz a = vz b -> a = b.
Proof. destruct a, b; simpl; intros -> -> ->; reflexivity. Qed.

(** [eul_to_mat3] followed by [mul_m3_v3] turns about X, then about Y,
    then about Z, each time about the fixed axis. *)
Lemma Vector_rotate_extrinsic (v : Vector) (a b c : R) :
  Vector_rotate v (mkEuler a b c) = extrinsic_xyz a b c v.
Proof.
  apply Vector_eq; unfold Vector_rotate, extrinsic_xyz; simpl; ring.
Qed.

Lemma sin2_cos2' (t : R) : (sin t * sin t + cos t * cos t = 1)%R.
Proof. generalize (sin2_cos2 t); unfold Rsqr; tauto. Qed.

Lemma rot_x_length_squared (t : R) (v : Vector) :
  length_squared (rot_x t v) = length_squared v.
Proof.
  unfold length_squared; simpl.
  pose proof (sin2_cos2' t) as E.
  replace (vx v * vx v + vy v * vy v + vz v * vz v)%R
    with (vx v * vx v + (sin t * sin t + cos t * cos t) * (vy v * vy v + vz v * vz v))%R
    by (rewrite E; ring).
  ring.
Qed.

Lemma rot_y_length_squared (t : R) (v : Vector) :
  length_squared (rot_y t v) = length_squared v.
Proof.
  unfold length_squared; simpl.
  pose proof (sin2_cos2' t) as E.
  replace (vx v * vx v + vy v * vy v + vz v * vz v)%R
    with (vy v * vy v + (sin t * sin t + cos t * cos t) * (vx v * vx v + vz v * vz v))%R
    by (rewrite E; ring).
  ring.
Qed.

Lemma rot_z_length_squared (t : R) (v : Vector) :
  length_squared (rot_z t v) = length_squared v.
Proof.
  unfold length_squared; simpl.
  pose proof (sin2_cos2' t) as E.
  replace (vx v * vx v + vy v * vy v + vz v * vz v)%R
    with (vz v * vz v + (sin t * sin t + cos t * cos t) * (vx v * vx v + vy v * vy v))%R
    by (rewrite E; ring).
  ring.
Qed.

Lemma Vector_rotate_length_squared (v : Vector) (e : Euler) :
  length_squared (Vector_rotate v e) = length_squared v.
Proof.
  destruct e as [a b c].
  rewrite Vector_rotate_extrinsic; unfold extrinsic_xyz.
  rewrite rot_z_length_squared, rot_y_length_squared, rot_x_length_squared.
  reflexivity.
Qed.

Lemma Vector_rotate_zero (v : Vector) :
  Vector_rotate v (mkEuler 0 0 0) = v.
Proof.
  apply Vector_eq; unfold Vector_rotate; simpl;
    rewrite ?sin_0, ?cos_0; ring.
Qed.

Lemma Vector_sub_add (p m : Vector) : Vector_sub (Vector_add p m) p = m.
Proof. apply Vector_eq; simpl; ring. Qed.

(** ** Lists of steps *)

Lemma steps_snoc (l : list vert) (p q : vert) :
  steps ((l ++ [p]) ++ [q]) =
  steps (l ++ [p]) ++ [Vector_sub (Vector_of q) (Vector_of p)].
Proof.
  induction l as [|x l IH]; [reflexivity|].
  destruct l as [|y l]; [reflexivity|].
  change (steps (((x :: y :: l) ++ [p]) ++ [q]))
    with (Vector_sub (Vector_of y) (Vector_of x) :: steps (((y :: l) ++ [p]) ++ [q])).
  rewrite IH; reflexivity.
Qed.

Lemma steps_length (l : list vert) : length (steps l) = length l - 1.
Proof.
  induction l as [|x l IH]; [reflexivity|].
  destruct l as [|y l]; [reflexivity|].
  change (steps (x :: y :: l)) with
    (Vector_sub (Vector_of y) (Vector_of x) :: steps (y :: l)).
  simpl length in *. lia.
Qed.

Lemma Forall_eq_repeat {A : Type} (h : A) (l : list A) :
  Forall (fun s => s = h) l -> l = repeat h (length l).
Proof.
  induction 1 as [|x l -> _ IH]; simpl; [reflexivity|]. f_equal; exact IH.
Qed.

(** ** The walk *)

Section WalkProofs.
Context `{Host}.

Lemma random_range_eq (self : Operator) (lo hi : R) :
  random_range self lo hi =
  ((lo + draw1 (prng self) * (hi - lo))%R, set_prng self (after1 (prng self))).
Proof.
  unfold random_range, draw1, after1.
  destruct (Random_random (prng self)); reflexivity.
Qed.

(** One turn of the loop, written out. *)
Lemma walk_body_eq (st : walk_state) :
  let self := w_self st in
  let g := prng self in
  let e := mkEuler (angle self (draw1 g)) (angle self (draw2 g))
                   (angle self (draw3 g)) in
  let moveVec' := Vector_rotate (moveVec st) e in
  let lastPos' := Vector_add (lastPos st) moveVec' in
  walk_body st =
  {| w_self := set_prng self (after3 g);
     verts := verts st ++ [vert_of lastPos'];
     lastPos := lastPos';
     moveVec := moveVec' |}.
Proof.
  unfold walk_body; rewrite !random_range_eq; reflexivity.
Qed.

Lemma walk_body_verts (st : walk_state) :
  verts (walk_body st) = verts st ++ [vert_of (lastPos (walk_body st))].
Proof. rewrite walk_body_eq; reflexivity. Qed.

Lemma walk_body_lastPos (st : walk_state) :
  lastPos (walk_body st) = Vector_add (lastPos st) (moveVec (walk_body st)).
Proof. rewrite walk_body_eq; reflexivity. Qed.

Lemma walk_body_wander (st : walk_state) :
  minMove (w_self (walk_body st)) = minMove (w_self st) /\
  maxMove (w_self (walk_body st)) = maxMove (w_self st).
Proof. rewrite walk_body_eq; split; reflexivity. Qed.

(** The loop only appends. *)
Lemma for_range_walk_verts (k : nat) (st : walk_state) :
  exists l, verts (for_range k walk_body st) = verts st ++ l /\ length l = k.
Proof.
  revert st; induction k as [|k IH]; intros st; simpl.
  - exists []; split; [symmetry; apply app_nil_r | reflexivity].
  - destruct (IH (walk_body st)) as (l & E & L).
    rewrite walk_body_verts in E.
    exists (vert_of (lastPos (walk_body st)) :: l); split.
    + rewrite E, <- app_assoc; reflexivity.
    + simpl; rewrite L; reflexivity.
Qed.

Lemma walk_init_at_lastPos (self : Operator) : at_lastPos (walk_init self).
Proof. exists []; reflexivity. Qed.

Lemma walk_body_at_lastPos (st : walk_state) : at_lastPos (walk_body st).
Proof. exists (verts st); apply walk_body_verts. Qed.

Lemma walk_body_steps (st : walk_state) :
  at_lastPos st ->
  steps (verts (walk_body st)) = steps (verts st) ++ [moveVec (walk_body st)].
Proof.
  intros (l & E).
  rewrite walk_body_verts, E, steps_snoc. f_equal. f_equal.
  rewrite walk_body_lastPos.
  destruct (lastPos st), (moveVec (walk_body st)); simpl.
  apply Vector_eq; simpl; ring.
Qed.

(** A property of the heading that every turn of the loop keeps holds
    of every step of the path. *)
Lemma for_range_walk_steps (P : Vector -> Prop) (I : walk_state -> Prop) :
  (forall st, I st -> P (moveVec st) ->
              I (walk_body st) /\ P (moveVec (walk_body st))) ->
  forall (k : nat) (st : walk_state),
    I st -> P (moveVec st) -> at_lastPos st ->
    Forall P (steps (verts st)) ->
    Forall P (steps (verts (for_range k walk_body st))).
Proof.
  intros keep; induction k as [|k IH]; intros st HI HP Hl HF; simpl; [exact HF|].
  destruct (keep st HI HP) as [HI' HP'].
  apply IH; auto using walk_body_at_lastPos.
  rewrite walk_body_steps by exact Hl.
  apply Forall_app; split; [exact HF | constructor; [exact HP' | constructor]].
Qed.

Lemma clamp_to_nat (n : Z) :
  S (Z.to_nat ((if (n <? 1)%Z then 1%Z else n) - 1)) = Z.to_nat (Z.max n 1).
Proof. destruct (Z.ltb_spec n 1); lia. Qed.

Lemma generate_walking_verts_count (self : Operator) (pathLength : Z) :
  length (fst (generate_walking_verts self pathLength))
  = Z.to_nat (Z.max pathLength 1).
Proof.
  unfold generate_walking_verts; simpl fst.
  destruct (for_range_walk_verts
              (Z.to_nat ((if (pathLength <? 1)%Z then 1%Z else pathLength) - 1))
              (walk_init self)) as (l & E & L).
  rewrite E, length_app, L. apply clamp_to_nat.
Qed.

(** C4: the list [generate_walking_verts] returns has exactly
    max(pathLength, 1) entries, for every generator state and every
    pair of wander bounds: [pathLength] below 1 is raised to 1, the
    origin is the first entry, and the loop appends
    max(pathLength, 1) - 1 more. *)
Theorem generate_walking_verts_length (self : Operator) (pathLength : Z) :
  length (fst (generate_walking_verts self pathLength))
    = Z.to_nat (Z.max pathLength 1)
  /\ exists rest,
       fst (generate_walking_verts self pathLength) = (0, 0, 0)%R :: rest
       /\ length rest = Z.to_nat (Z.max pathLength 1 - 1).
Proof.
  unfold generate_walking_verts; simpl fst.
  destruct (for_range_walk_verts
              (Z.to_nat ((if (pathLength <? 1)%Z then 1%Z else pathLength) - 1))
              (walk_init self)) as (l & E & L).
  rewrite E. split.
  - rewrite length_app, L. apply clamp_to_nat.
  - exists l; split; [reflexivity|].
    revert L; destruct (Z.ltb_spec pathLength 1); intros L;
      (etransitivity; [exact L | lia]).
Qed.

Lemma generate_walking_verts_head (self : Operator) (pathLength : Z) :
  fst (generate_walking_verts self pathLength) !! 0%nat = Some (0, 0, 0)%R.
Proof.
  unfold generate_walking_verts; simpl fst.
  destruct (for_range_walk_verts
              (Z.to_nat ((if (pathLength <? 1)%Z then 1%Z else pathLength) - 1))
              (walk_init self)) as (l & E & _).
  rewrite E; reflexivity.
Qed.

Lemma angle_fixed (self : Operator) (w u : R) :
  minMove self = w -> maxMove self = w -> angle self u = w.
Proof. unfold angle; intros -> ->; ring. Qed.

(** C6, as the code has it: one turn of the loop draws the three angles
    in the order x, y, z, turns the heading about the fixed X axis, then
    about the fixed Y axis, then about the fixed Z axis (the extrinsic
    composition X, Y, Z, which is the matrix Rz * Ry * Rx and the same
    rotation as the intrinsic composition Z, Y, X), adds the turned
    heading to the position and appends the sum. *)
Theorem walk_body_rotates_then_adds (st : walk_state) :
  let self := w_self st in
  let g := prng self in
  let a := angle self (draw1 g) in
  let b := angle self (draw2 g) in
  let c := angle self (draw3 g) in
  moveVec (walk_body st) = Vector_rotate (moveVec st) (mkEuler a b c)
  /\ Vector_rotate (moveVec st) (mkEuler a b c)
     = rot_z c (rot_y b (rot_x a (moveVec st)))
  /\ lastPos (walk_body st) = Vector_add (lastPos st) (moveVec (walk_body st))
  /\ verts (walk_body st) = verts st ++ [vert_of (lastPos (walk_body st))].
Proof.
  intros self g a b c. split; [|split; [|split]].
  - rewrite walk_body_eq; reflexivity.
  - apply Vector_rotate_extrinsic.
  - apply walk_body_lastPos.
  - apply walk_body_verts.
Qed.

(** C9: [random_range] returns [min + u * (max - min)] for the next
    draw [u] of the generator, whatever [min] and [max] are; one turn of
    the loop calls it three times in a row with the operator's two
    bounds, once per axis; and with [max < min] and [u] in [0, 1) the
    value lies in the inverted range, above [max] and at most [min]. *)
Theorem random_range_unvalidated (self : Operator) (lo hi : R) :
  random_range self lo hi
    = ((lo + draw1 (prng self) * (hi - lo))%R,
       set_prng self (after1 (prng self)))
  /\ (forall st : walk_state,
        let s := w_self st in
        let g := prng s in
        moveVec (walk_body st)
          = Vector_rotate (moveVec st)
              (mkEuler (minMove s + draw1 g * (maxMove s - minMove s))
                       (minMove s + draw2 g * (maxMove s - minMove s))
                       (minMove s + draw3 g * (maxMove s - minMove s)))
        /\ prng (w_self (walk_body st)) = after3 g)
  /\ ((0 <= draw1 (prng self) < 1)%R -> (hi < lo)%R ->
      (hi < fst (random_range self lo hi) <= lo)%R).
Proof.
  split; [apply random_range_eq | split].
  - intros st s g; rewrite walk_body_eq; split; reflexivity.
  - intros [Hu0 Hu1] Hinv. rewrite random_range_eq; simpl fst.
    split; nra.
Qed.

(** C7: with both wander bounds 0 every angle drawn is 0, the rotation
    by three zero angles leaves a vector as it is, and every step of the
    path is the first heading, (0, 0, 0.1). *)
Theorem zero_wander_straight_line (self : Operator) (pathLength : Z) :
  minMove self = 0%R -> maxMove self = 0%R ->
  (forall s : Operator, minMove s = 0%R -> maxMove s = 0%R ->
     fst (random_range s (minMove s) (maxMove s)) = 0%R)
  /\ (forall v : Vector, Vector_rotate v (mkEuler 0 0 0) = v)
  /\ steps (fst (generate_walking_verts self pathLength))
     = repeat (mkVector 0 0 (1 / 10)) (Z.to_nat (Z.max pathLength 1) - 1).
Proof.
  intros Hmin Hmax. split; [|split].
  - intros s -> ->. rewrite random_range_eq; simpl; ring.
  - apply Vector_rotate_zero.
  - pose proof (generate_walking_verts_count self pathLength) as L.
    rewrite <- L, <- steps_length.
    apply Forall_eq_repeat.
    unfold generate_walking_verts; simpl fst.
    apply (for_range_walk_steps
             (fun v => v = mkVector 0 0 (1 / 10))
             (fun st => minMove (w_self st) = 0%R /\ maxMove (w_self st) = 0%R)).
    + intros st [E1 E2] Hv.
      destruct (walk_body_wander st) as [W1 W2].
      split; [split; congruence|].
      rewrite walk_body_eq; simpl.
      rewrite !(angle_fixed _ 0) by assumption.
      rewrite Vector_rotate_zero; exact Hv.
    + split; assumption.
    + reflexivity.
    + apply walk_init_at_lastPos.
    + constructor.
Qed.

Lemma sqrt_hundredth : sqrt (1 / 100) = (1 / 10)%R.
Proof. apply sqrt_lem_1; lra. Qed.

(** C8: [Vector.rotate] by an Euler keeps the length of the vector, and
    the distance between any two consecutive points of a path is 0.1,
    the length of the first heading, for every generator and every pair
    of wander bounds. *)
Theorem constant_step_length (self : Operator) (pathLength : Z) :
  (forall (v : Vector) (e : Euler),
      Vector_length (Vector_rotate v e) = Vector_length v)
  /\ Vector_length (moveVec (walk_init self)) = (1 / 10)%R
  /\ Forall (fun s => Vector_length s = (1 / 10)%R)
            (steps (fst (generate_walking_verts self pathLength))).
Proof.
  split; [|split].
  - intros v e; unfold Vector_length;
      rewrite Vector_rotate_length_squared; reflexivity.
  - unfold Vector_length, length_squared; simpl.
    etransitivity; [|apply sqrt_hundredth]; f_equal; lra.
  - apply List.Forall_impl with (P := fun s => length_squared s = (1 / 100)%R).
    + intros s E; unfold Vector_length; rewrite E; apply sqrt_hundredth.
    + unfold generate_walking_verts; simpl fst.
      apply (for_range_walk_steps
               (fun v => length_squared v = (1 / 100)%R) (fun _ => True)).
      * intros st _ Hv; split; [exact I|].
        rewrite walk_body_eq; simpl.
        rewrite Vector_rotate_length_squared; exact Hv.
      * exact I.
      * unfold length_squared; simpl; lra.
      * apply walk_init_at_lastPos.
      * constructor.
Qed.

End WalkProofs.

(** ** Splines *)

Section CurveProofs.
Context `{Host}.

Lemma copy_from (verts : list vert) :
  forall (i : nat) (pre rest : list co4),
    length pre = i -> length verts <= length rest ->
    fold_left
      (fun (pts : list co4) (ic : nat * vert) =>
         let '(i, (x, y, z)) := ic in <[i := (x, y, z, 1%R)]> pts)
      (enumerate_from i verts) (pre ++ rest)
    = pre ++ map co_of verts ++ drop (length verts) rest.
Proof.
  induction verts as [|[[x y] z] verts IH]; intros i pre rest Hi Hlen.
  - reflexivity.
  - destruct rest as [|r rest]; [simpl in Hlen; lia|].
    simpl fold_left.
    replace (<[i := (x, y, z, 1%R)]> (pre ++ r :: rest))
      with ((pre ++ [(x, y, z, 1%R)]) ++ rest).
    + rewrite IH.
      * rewrite <- app_assoc; reflexivity.
      * rewrite length_app; simpl; lia.
      * simpl in Hlen; lia.
    + rewrite <- app_assoc; simpl.
      subst i. replace (length pre) with (length pre + 0) by lia.
      rewrite insert_app_r; reflexivity.
Qed.

Lemma drop_repeat_last {A : Type} (d : A) (n : nat) :
  drop n (repeat d (S n)) = [d].
Proof. induction n as [|n IH]; [reflexivity | exact IH]. Qed.

Lemma polyline_points_eq (verts : list vert) :
  polyline_points verts = map co_of verts ++ [BPoint_default].
Proof.
  unfold polyline_points, copy_verts, enumerate.
  change ([BPoint_default] ++ repeat BPoint_default (length verts))
    with ([] ++ ([BPoint_default] ++ repeat BPoint_default (length verts))).
  rewrite (copy_from verts 0 [] ([BPoint_default] ++ repeat BPoint_default (length verts))).
  - simpl app. change (BPoint_default :: repeat BPoint_default (length verts))
      with (repeat BPoint_default (S (length verts))).
    rewrite drop_repeat_last; reflexivity.
  - reflexivity.
  - simpl; rewrite repeat_length; lia.
Qed.

(** Every index the copy loop writes is an index of the spline. *)
Lemma copy_verts_in_range (verts : list vert) :
  Forall (fun ic : nat * vert => fst ic < S (length verts)) (enumerate verts).
Proof.
  unfold enumerate.
  assert (G : forall i, Forall (fun ic : nat * vert => fst ic < i + S (length verts))
                               (enumerate_from i verts)).
  { induction verts as [|v verts IH]; intros i; simpl; constructor.
    - simpl; lia.
    - eapply List.Forall_impl; [|apply (IH (S i))]. simpl; intros; lia. }
  exact (G 0).
Qed.

Lemma update_object_fresh (l : list Object) (n : nat) (f : Object -> Object) :
  Forall (fun o => ob_id o < n) l ->
  map (fun o => if Nat.eqb (ob_id o) n then f o else o) l = l.
Proof.
  induction 1 as [|o l Ho _ IH]; simpl; [reflexivity|].
  rewrite IH. destruct (Nat.eqb_spec (ob_id o) n); [lia | reflexivity].
Qed.

(** What [generate_curve] leaves behind: one more object, last in
    [bpy.data.objects], selected, without parent, whose curve has one
    spline with the points of the walk. *)
Lemma generate_curve_spec (self : Operator) (b : Bpy) (len cc : Z) :
  let r := generate_curve self b len cc in
  exists (o : Object) (c : Curve),
    fst (fst r) = next_id b
    /\ snd (fst r) = snd (generate_walking_verts self len)
    /\ objects (snd r)
       = map (fun o => if Nat.eqb (ob_id o) (next_id b) then set_select true o else o)
             (objects b) ++ [o]
    /\ next_id (snd r) = S (next_id b)
    /\ ob_id o = next_id b
    /\ ob_parent o = None
    /\ ob_select o = true
    /\ ob_data o = Some c
    /\ splines c
       = [mkSpline "NURBS" (polyline_points (fst (generate_walking_verts self len)))].
Proof.
  unfold generate_curve.
  destruct (generate_walking_verts self len) as [vs s]; simpl.
  destruct (materials_get _ _); simpl;
    (eexists; eexists; split; [reflexivity|]; split; [reflexivity|];
     split; [rewrite map_app; simpl; rewrite Nat.eqb_refl; reflexivity|];
     repeat split; reflexivity).
Qed.

(** C10: the spline of the object [generate_curve] returns has one
    point more than the walk has vertices: the first [len(verts)] points
    carry the vertices with weight 1, the last one is still as Blender
    allocated it, so the curve has max(pathLength, 1) + 1 points. *)
Theorem generate_curve_extra_point (self : Operator) (b : Bpy)
    (pathLength curveCount : Z) :
  let r := generate_curve self b pathLength curveCount in
  let verts := fst (generate_walking_verts self pathLength) in
  exists (o : Object) (c : Curve) (polyline : Spline),
    last (objects (snd r)) = Some o
    /\ ob_id o = fst (fst r)
    /\ ob_data o = Some c
    /\ splines c = [polyline]
    /\ points polyline = map co_of verts ++ [BPoint_default]
    /\ length (points polyline) = S (length verts)
    /\ length (points polyline) = Z.to_nat (Z.max pathLength 1) + 1.
Proof.
  intros r verts.
  destruct (generate_curve_spec self b pathLength curveCount)
    as (o & c & Hid & _ & Hobj & _ & Ho & _ & _ & Hd & Hs).
  exists o, c, (mkSpline "NURBS" (polyline_points verts)).
  fold r in Hid, Hobj. simpl points.
  pose proof (generate_walking_verts_count self pathLength) as L.
  fold verts in L.
  assert (Hlen : length (polyline_points verts) = S (length verts)).
  { rewrite polyline_points_eq, length_app, length_map; simpl; lia. }
  split; [rewrite Hobj; apply last_snoc|].
  split; [congruence|].
  split; [exact Hd|].
  split; [exact Hs|].
  split; [apply polyline_points_eq|].
  split; [exact Hlen|].
  rewrite Hlen, L; lia.
Qed.

End CurveProofs.

(** ** The batch *)

Section ExecuteProofs.
Context `{Host}.

Lemma set_prng_set_prng (self : Operator) (g g' : Random) :
  set_prng (set_prng self g) g' = set_prng self g'.
Proof. reflexivity. Qed.

(** The walk changes nothing of the operator but its generator. *)
Lemma for_range_walk_self (k : nat) :
  forall st, exists g, w_self (for_range k walk_body st) = set_prng (w_self st) g.
Proof.
  induction k as [|k IH]; intros st; simpl.
  - exists (prng (w_self st)); destruct (w_self st); reflexivity.
  - destruct (IH (walk_body st)) as [g E]; exists g.
    rewrite E, walk_body_eq; reflexivity.
Qed.

Lemma generate_walking_verts_self (self : Operator) (len : Z) :
  exists g, snd (generate_walking_verts self len) = set_prng self g.
Proof. unfold generate_walking_verts; simpl; apply for_range_walk_self. Qed.

(** The generator after a walk: three draws further for every point
    after the first. *)
Lemma for_range_walk_prng (k : nat) :
  forall st, prng (w_self (for_range k walk_body st))
             = for_range k after3 (prng (w_self st)).
Proof.
  induction k as [|k IH]; intros st; simpl; [reflexivity|].
  rewrite IH, walk_body_eq; reflexivity.
Qed.

(** One turn of the loop of [execute] adds one object, last in
    [bpy.data.objects], whose parent is the container and whose spline
    carries the next walk. *)
Lemma execute_body_spec (e : nat) (st : exec_state) :
  Forall (fun o => ob_id o < next_id (e_bpy st)) (objects (e_bpy st)) ->
  let walk := generate_walking_verts (e_self st) (pathLength (e_self st)) in
  exists o,
    objects (e_bpy (execute_body e st)) = objects (e_bpy st) ++ [o]
    /\ next_id (e_bpy (execute_body e st)) = S (next_id (e_bpy st))
    /\ e_self (execute_body e st) = snd walk
    /\ ob_id o = next_id (e_bpy st)
    /\ ob_parent o = Some e
    /\ object_points o = [polyline_points (fst walk)].
Proof.
  intros Hlt walk. unfold execute_body.
  pose proof (generate_curve_spec (e_self st) (e_bpy st)
                (pathLength (e_self st)) (e_curveCount st)) as S.
  cbv zeta in S.
  destruct S as (o & c & Hid & Hself & Hobj & Hnext & Ho & Hp & Hsel & Hd & Hs).
  destruct (generate_curve (e_self st) (e_bpy st) (pathLength (e_self st))
                           (e_curveCount st)) as [[curve s] b'].
  simpl in Hid, Hself, Hobj, Hnext. subst curve s.
  exists (set_parent (Some e) o). simpl.
  split; [|split; [exact Hnext | split; [reflexivity | split; [exact Ho | split]]]].
  - rewrite Hobj, map_app.
    rewrite (update_object_fresh (objects (e_bpy st)) _ (set_select true)) by exact Hlt.
    rewrite (update_object_fresh (objects (e_bpy st)) _ (set_parent (Some e))) by exact Hlt.
    simpl. rewrite Ho, Nat.eqb_refl. reflexivity.
  - reflexivity.
  - unfold object_points; simpl. rewrite Hd, Hs; reflexivity.
Qed.

Lemma generate_from_S (k : nat) (self : Operator) :
  generate_from (S k) self =
  (fst (generate_walking_verts self (pathLength self))
     :: fst (generate_from k (snd (generate_walking_verts self (pathLength self)))),
   snd (generate_from k (snd (generate_walking_verts self (pathLength self))))).
Proof.
  change (generate_from (S k) self) with
    (let (path, s) := generate_walking_verts self (pathLength self) in
     let (rest, s') := generate_from k s in (path :: rest, s')).
  destruct (generate_walking_verts self (pathLength self)) as [p s].
  cbn [fst snd]. destruct (generate_from k s); reflexivity.
Qed.

Lemma generate_from_length (k : nat) :
  forall self, length (fst (generate_from k self)) = k.
Proof.
  induction k as [|k IH]; intros self; [reflexivity|].
  rewrite generate_from_S; simpl; rewrite IH; reflexivity.
Qed.

(** The loop of [execute]: [k] objects more, made one after the other,
    all under the container, carrying the [k] walks of the one
    generator. *)
Lemma execute_loop_spec (e : nat) (k : nat) :
  forall st,
    Forall (fun o => ob_id o < next_id (e_bpy st)) (objects (e_bpy st)) ->
    let fin := for_range k (execute_body e) st in
    exists news,
      objects (e_bpy fin) = objects (e_bpy st) ++ news
      /\ next_id (e_bpy fin) = next_id (e_bpy st) + k
      /\ e_self fin = snd (generate_from k (e_self st))
      /\ map ob_id news = seq (next_id (e_bpy st)) k
      /\ Forall (fun o => ob_parent o = Some e) news
      /\ map object_points news
         = map (fun path => [polyline_points path])
               (fst (generate_from k (e_self st))).
Proof.
  induction k as [|k IH]; intros st Hlt; cbv zeta.
  - exists []; simpl. rewrite app_nil_r, Nat.add_0_r.
    repeat split; constructor.
  - destruct (execute_body_spec e st Hlt) as (o & Hobj & Hnext & Hself & Ho & Hp & Hpts).
    assert (Hlt' : Forall (fun o => ob_id o < next_id (e_bpy (execute_body e st)))
                          (objects (e_bpy (execute_body e st)))).
    { rewrite Hobj, Hnext. apply List.Forall_app; split.
      - eapply List.Forall_impl; [|exact Hlt]. simpl; intros; lia.
      - constructor; [lia | constructor]. }
    destruct (IH (execute_body e st) Hlt')
      as (news & Hobj' & Hnext' & Hself' & Hids & Hpar & Hpoints).
    exists (o :: news). simpl for_range. rewrite generate_from_S.
    rewrite Hobj', Hobj, Hnext', Hnext, Hself', Hself.
    split; [rewrite <- app_assoc; reflexivity|].
    split; [lia|].
    split; [reflexivity|].
    split; [simpl; rewrite Ho, Hids, Hnext; reflexivity|].
    split; [constructor; assumption|].
    simpl. rewrite Hpts, Hpoints, Hself. reflexivity.
Qed.

Lemma select_each_objects (cs : list Object) :
  forall b0,
    let b1 := fold_left
                (fun b child => update_object b (ob_id child) (set_select true))
                cs b0 in
    objects b1
    = map (fun o => if existsb (fun c => Nat.eqb (ob_id o) (ob_id c)) cs
                    then set_select true o else o) (objects b0)
    /\ next_id b1 = next_id b0.
Proof.
  induction cs as [|c cs IH]; intros b0; cbv zeta.
  - simpl; split; [symmetry; apply List.map_id | reflexivity].
  - simpl fold_left. destruct (IH (update_object b0 (ob_id c) (set_select true)))
      as [E N]. rewrite E, N; split; [|reflexivity].
    simpl objects. rewrite List.map_map. apply List.map_ext; intros o.
    simpl existsb. destruct (Nat.eqb (ob_id o) (ob_id c)); simpl.
    + destruct (existsb _ cs); reflexivity.
    + reflexivity.
Qed.

Lemma doomed_child (b : Bpy) (e : nat) (o : Object) :
  In o (objects b) -> is_child_of e o = true -> doomed b e o = true.
Proof.
  intros Hin Hc. unfold doomed. apply existsb_exists.
  exists (set_select false o); split; [|simpl; apply Nat.eqb_refl].
  unfold children; simpl. apply filter_In; split; [|exact Hc].
  apply in_map; exact Hin.
Qed.

Lemma doomed_inv (b : Bpy) (e : nat) (o : Object) :
  doomed b e o = true ->
  exists c, In c (objects b) /\ is_child_of e c = true /\ ob_id c = ob_id o.
Proof.
  unfold doomed; intros Hd. apply existsb_exists in Hd.
  destruct Hd as (c' & Hin & Heq).
  unfold children in Hin; simpl in Hin. apply filter_In in Hin.
  destruct Hin as [Hin Hc]. apply in_map_iff in Hin.
  destruct Hin as (c & <- & Hin). exists c; repeat split; try assumption.
  apply Nat.eqb_eq in Heq; simpl in Heq; congruence.
Qed.

Lemma kept_after_select (cs : list Object) (l : list Object) :
  List.filter (fun o => negb (ob_select o))
    (map (fun o => if existsb (fun c => Nat.eqb (ob_id o) (ob_id c)) cs
                   then set_select true o else o)
         (map (set_select false) l))
  = map (set_select false)
        (List.filter
           (fun o => negb (existsb (fun c => Nat.eqb (ob_id o) (ob_id c)) cs)) l).
Proof.
  induction l as [|o l IH]; [reflexivity|].
  simpl. destruct (existsb _ cs); simpl; rewrite IH; reflexivity.
Qed.

(** The container is there: its children, and whatever shares their
    identity, leave; the rest stays in order; nothing is made. *)
Lemma prepare_found (b : Bpy) (e : nat) :
  container b = Some e ->
  exists G : Object -> Object,
    fst (prepare_empty b) = e
    /\ objects (snd (prepare_empty b))
       = map G (List.filter (fun o => negb (doomed b e o)) (objects b))
    /\ next_id (snd (prepare_empty b)) = next_id b
    /\ forall o, touched o (G o).
Proof.
  unfold container, prepare_empty; intros ->.
  destruct (select_each_objects (children (select_all_DESELECT b) e)
                                (select_all_DESELECT b)) as [E N].
  cbv zeta in E, N. simpl.
  rewrite E, N. simpl objects.
  rewrite (kept_after_select (children (select_all_DESELECT b) e)).
  rewrite !List.map_map.
  eexists; split; [reflexivity|]; split; [reflexivity|]; split; [reflexivity|].
  intros o; unfold touched; simpl.
  repeat match goal with
         | |- context [if ?c then _ else _] => destruct c; simpl
         | |- context [match ob_parent ?x with _ => _ end] =>
             destruct (ob_parent x) eqn:?; simpl
         end; repeat split; auto.
Qed.

Lemma find_none_names (name : string) (l : list Object) :
  find (fun o => String.eqb (ob_name o) name) l = None ->
  existsb (String.eqb name) (map ob_name l) = false.
Proof.
  induction l as [|o l IH]; simpl; [reflexivity|].
  rewrite (String.eqb_sym name).
  destruct (String.eqb (ob_name o) name); [discriminate | exact IH].
Qed.

(** No container: one is made, last in [bpy.data.objects], under the
    name asked for. *)
Lemma prepare_missing (b : Bpy) :
  Forall (fun o => ob_id o < next_id b) (objects b) ->
  container b = None ->
  exists o,
    fst (prepare_empty b) = next_id b
    /\ objects (snd (prepare_empty b)) = objects b ++ [o]
    /\ next_id (snd (prepare_empty b)) = S (next_id b)
    /\ ob_id o = next_id b
    /\ ob_name o = "RandomWalkingSplines"%string
    /\ ob_data o = None
    /\ ob_parent o = None.
Proof.
  intros Hlt. unfold container, prepare_empty, objects_get.
  destruct (find _ (objects b)) eqn:F; [discriminate|]; intros _.
  simpl. eexists. split; [reflexivity|].
  split; [rewrite map_app, update_object_fresh by exact Hlt;
          simpl; rewrite Nat.eqb_refl; reflexivity|].
  split; [reflexivity|]. split; [reflexivity|].
  split; [|split; reflexivity].
  simpl. unfold new_name. rewrite find_none_names by exact F. reflexivity.
Qed.

Lemma NoDup_map_inj {A B : Type} (f : A -> B) (l : list A) (x y : A) :
  List.NoDup (map f l) -> In x l -> In y l -> f x = f y -> x = y.
Proof.
  induction l as [|a l IH]; simpl; [tauto|].
  intros ND Hx Hy E. apply List.NoDup_cons_iff in ND. destruct ND as [Hn ND].
  destruct Hx as [-> | Hx], Hy as [-> | Hy]; auto.
  - exfalso; apply Hn; rewrite E; apply in_map; exact Hy.
  - exfalso; apply Hn; rewrite <- E; apply in_map; exact Hx.
Qed.

Lemma NoDup_map_filter {A B : Type} (f : A -> B) (k : A -> bool) (l : list A) :
  List.NoDup (map f l) -> List.NoDup (map f (List.filter k l)).
Proof.
  induction l as [|a l IH]; simpl; [auto|].
  intros ND. apply List.NoDup_cons_iff in ND. destruct ND as [Hn ND].
  destruct (k a); simpl; [|auto].
  apply List.NoDup_cons_iff; split; [|auto].
  intros Hin; apply Hn. apply in_map_iff in Hin.
  destruct Hin as (x & E & Hx). apply filter_In in Hx.
  rewrite <- E; apply in_map; tauto.
Qed.

Lemma find_map_filter (p keep : Object -> bool) (G : Object -> Object)
      (l : list Object) (o0 : Object) :
  (forall o, p (G o) = p o) ->
  find p l = Some o0 -> keep o0 = true ->
  find p (map G (List.filter keep l)) = Some (G o0).
Proof.
  intros HG. induction l as [|x l IH]; simpl; [discriminate|].
  intros F K. destruct (keep x) eqn:Kx; simpl.
  - rewrite HG. destruct (p x); [congruence | auto].
  - destruct (p x); [congruence | auto].
Qed.

Lemma find_app_some {A : Type} (p : A -> bool) (l1 l2 : list A) (x : A) :
  find p l1 = Some x -> find p (l1 ++ l2) = Some x.
Proof.
  induction l1 as [|a l1 IH]; simpl; [discriminate|].
  destruct (p a); auto.
Qed.

Lemma find_app_none {A : Type} (p : A -> bool) (l1 l2 : list A) :
  find p l1 = None -> find p (l1 ++ l2) = find p l2.
Proof.
  induction l1 as [|a l1 IH]; simpl; [reflexivity|].
  destruct (p a); [discriminate | auto].
Qed.

Lemma filter_none {A : Type} (f : A -> bool) (l : list A) :
  (forall x, In x l -> f x = false) -> List.filter f l = [].
Proof.
  induction l as [|a l IH]; simpl; intros Hf; [reflexivity|].
  rewrite (Hf a) by auto. apply IH; auto.
Qed.

Lemma filter_all {A : Type} (f : A -> bool) (l : list A) :
  Forall (fun x => f x = true) l -> List.filter f l = l.
Proof.
  induction 1 as [|a l Ha _ IH]; simpl; [reflexivity|].
  rewrite Ha, IH; reflexivity.
Qed.

(** The container of a well-formed [bpy] is not among the objects that
    [execute] deletes. *)
Lemma container_not_doomed (b : Bpy) (o0 : Object) :
  wf_bpy b -> In o0 (objects b) -> doomed b (ob_id o0) o0 = false.
Proof.
  intros [Hlt ND Hpar] Hin.
  destruct (doomed b (ob_id o0) o0) eqn:D; [|reflexivity].
  apply doomed_inv in D. destruct D as (c & Hc & Hch & Hid).
  assert (c = o0) by (eapply NoDup_map_inj; eauto). subst c.
  unfold is_child_of in Hch. destruct (ob_parent o0) as [p|] eqn:P; [|discriminate].
  apply Nat.eqb_eq in Hch.
  rewrite List.Forall_forall in Hpar. destruct (Hpar o0 Hin p P) as [_ Hne].
  congruence.
Qed.

Lemma is_child_of_iff (e : nat) (o : Object) :
  is_child_of e o = true <-> ob_parent o = Some e.
Proof.
  unfold is_child_of. destruct (ob_parent o) as [p|]; split; intros E;
    try discriminate.
  - apply Nat.eqb_eq in E; congruence.
  - injection E as ->; apply Nat.eqb_refl.
Qed.

Lemma touched_child (e : nat) (o o' : Object) :
  touched o o' -> is_child_of e o' = true -> is_child_of e o = true.
Proof.
  intros (_ & _ & _ & [E | E]); rewrite !is_child_of_iff; congruence.
Qed.

(** The first half of [execute], on a well-formed [bpy]. *)
Lemma prepare_empty_spec (b : Bpy) :
  wf_bpy b ->
  let e := fst (prepare_empty b) in
  let b1 := snd (prepare_empty b) in
  wf_bpy b1
  /\ container b1 = Some e
  /\ children b1 e = []
  /\ e < next_id b1
  /\ next_id b <= next_id b1
  /\ (forall e0, container b = Some e0 -> e = e0 /\ next_id b1 = next_id b)
  /\ (container b = None ->
      e = next_id b /\ next_id b1 = S (next_id b)
      /\ exists o, In o (objects b1) /\ ob_id o = e
                   /\ ob_data o = None /\ ob_parent o = None)
  /\ (forall o, In o (objects b) -> is_child_of e o = true ->
                ~ In (ob_id o) (map ob_id (objects b1))).
Proof.
  intros W e b1. pose proof W as [Hlt ND Hpar].
  rewrite List.Forall_forall in Hlt, Hpar.
  destruct (container b) as [e0|] eqn:C.
  - destruct (prepare_found b e0 C) as (G & He & Hobj & Hn & HG).
    fold e in He. fold b1 in Hobj, Hn. clearbody e b1. subst e.
    assert (Hids : map ob_id (objects b1)
                   = map ob_id (List.filter (fun o => negb (doomed b e0 o)) (objects b))).
    { rewrite Hobj, List.map_map. apply List.map_ext; intros o; apply HG. }
    assert (Hmem : forall x, In x (objects b1) ->
              exists o, x = G o /\ In o (objects b) /\ doomed b e0 o = false).
    { intros x Hx. rewrite Hobj in Hx. apply in_map_iff in Hx.
      destruct Hx as (o & <- & Ho). apply filter_In in Ho.
      destruct Ho as [Ho D]. exists o; repeat split; auto.
      destruct (doomed b e0 o); [discriminate | reflexivity]. }
    unfold container, objects_get in C.
    destruct (find _ (objects b)) as [o0|] eqn:F; [|discriminate].
    injection C as C. destruct (find_some _ _ F) as [Hin0 _].
    split; [|split; [|split; [|split; [|split; [|split; [|split]]]]]].
    + constructor.
      * apply List.Forall_forall; intros x Hx.
        destruct (Hmem x Hx) as (o & -> & Ho & _).
        destruct (HG o) as (-> & _). rewrite Hn; auto.
      * rewrite Hids. apply NoDup_map_filter; exact ND.
      * apply List.Forall_forall; intros x Hx p Hp.
        destruct (Hmem x Hx) as (o & -> & Ho & _).
        destruct (HG o) as (Ei & _ & _ & [Ep | Ep]); [|congruence].
        rewrite Ei, Hn. apply Hpar; [exact Ho | congruence].
    + unfold container, objects_get. rewrite Hobj.
      rewrite (find_map_filter _ (fun o => negb (doomed b e0 o)) G _ o0).
      * simpl. destruct (HG o0) as (-> & _). congruence.
      * intros o. destruct (HG o) as (_ & -> & _). reflexivity.
      * exact F.
      * rewrite <- C. rewrite container_not_doomed by assumption. reflexivity.
    + unfold children. apply filter_none; intros x Hx.
      destruct (Hmem x Hx) as (o & -> & Ho & D).
      destruct (is_child_of e0 (G o)) eqn:Ch; [|reflexivity].
      apply (touched_child e0 o) in Ch; [|apply HG].
      rewrite (doomed_child b e0 o Ho Ch) in D; discriminate.
    + rewrite Hn, <- C; auto.
    + rewrite Hn; lia.
    + intros e1 E1; injection E1 as <-; auto.
    + discriminate.
    + intros o Ho Ch Hin. rewrite Hids in Hin. apply in_map_iff in Hin.
      destruct Hin as (o' & Eid & Ho'). apply filter_In in Ho'.
      destruct Ho' as [Ho' D].
      assert (o' = o) by (eapply NoDup_map_inj; eauto). subst o'.
      rewrite (doomed_child b e0 o Ho Ch) in D; discriminate.
  - assert (Hlt' : Forall (fun o => ob_id o < next_id b) (objects b))
      by (apply List.Forall_forall; exact Hlt).
    destruct (prepare_missing b Hlt' C)
      as (o & He & Hobj & Hn & Hid & Hname & Hdata & Hp).
    fold e in He. fold b1 in Hobj, Hn. clearbody e b1. subst e.
    unfold container, objects_get in C.
    destruct (find _ (objects b)) as [o0|] eqn:F; [discriminate|]. clear C.
    assert (Hnochild : forall x, In x (objects b) ->
                                 is_child_of (next_id b) x = false).
    { intros x Hx. destruct (is_child_of (next_id b) x) eqn:Ch; [|reflexivity].
      apply is_child_of_iff in Ch. destruct (Hpar x Hx _ Ch); lia. }
    split; [|split; [|split; [|split; [|split; [|split; [|split]]]]]].
    + constructor; rewrite Hobj, ?Hn.
      * apply List.Forall_app; split.
        -- apply List.Forall_forall; intros x Hx; specialize (Hlt x Hx); lia.
        -- constructor; [lia | constructor].
      * rewrite map_app. apply List.NoDup_app; [exact ND | |].
        -- simpl. constructor; [simpl; tauto | constructor].
        -- intros a Ha [<- | []]. apply in_map_iff in Ha.
           destruct Ha as (x & Ex & Hx). specialize (Hlt x Hx). lia.
      * apply List.Forall_app; split.
        -- apply List.Forall_forall; intros x Hx p P.
           destruct (Hpar x Hx p P); split; [lia | assumption].
        -- constructor; [|constructor]. intros p P; congruence.
    + unfold container, objects_get. rewrite Hobj.
      rewrite find_app_none by exact F. simpl.
      rewrite Hname, String.eqb_refl. simpl. congruence.
    + unfold children. rewrite Hobj, List.filter_app.
      rewrite (filter_none _ (objects b)) by exact Hnochild.
      simpl. unfold is_child_of. rewrite Hp. reflexivity.
    + rewrite Hn; lia.
    + rewrite Hn; lia.
    + discriminate.
    + intros _. split; [reflexivity|]. split; [exact Hn|].
      exists o. rewrite Hobj. repeat split; auto.
      apply in_or_app; right; left; reflexivity.
    + intros x Hx Ch.
      rewrite (Hnochild x Hx) in Ch; discriminate.
Qed.

(** One run of [execute] on a well-formed [bpy]: the container, the
    objects under it, and where their points come from. *)
Lemma execute_spec (self : Operator) (fresh : Random) (b : Bpy) :
  wf_bpy b ->
  let r := snd (execute self fresh b) in
  let n := Z.to_nat (numCurves self) in
  exists (e : nat) (news : list Object),
    wf_bpy r
    /\ container r = Some e
    /\ children r e = news
    /\ length news = n
    /\ Forall (fun o => next_id b <= ob_id o) news
    /\ map object_points news
       = map (fun path => [polyline_points path]) (generate self fresh)
    /\ (forall e0, container b = Some e0 -> e = e0 /\ next_id r = next_id b + n)
    /\ (container b = None ->
        e = next_id b /\ next_id r = S (next_id b) + n
        /\ exists o, In o (objects r) /\ ob_id o = e
                     /\ ob_data o = None /\ ob_parent o = None)
    /\ (forall o, In o (objects b) -> is_child_of e o = true ->
                  ~ In (ob_id o) (map ob_id (objects r))).
Proof.
  intros W r n.
  pose proof (prepare_empty_spec b W) as P. cbv zeta in P.
  unfold execute in r.
  destruct (prepare_empty b) as [e b1] eqn:Eprep. simpl fst in P; simpl snd in P.
  destruct P as (W1 & C1 & Ch1 & He1 & Hn1 & Hfound & Hmissing & Hgone).
  pose proof W1 as [Hlt1 ND1 Hpar1].
  pose proof (execute_loop_spec e n
                {| e_self := seed_prng self fresh; e_bpy := b1; e_curveCount := 0 |}
                Hlt1) as L.
  cbv zeta in L. simpl e_bpy in L; simpl e_self in L.
  destruct L as (news & Hobj & Hnext & _ & Hids & Hpar & Hpts).
  change (numCurves (seed_prng self fresh)) with (numCurves self) in r.
  fold n in r. simpl snd in r.
  fold r in Hobj, Hnext. clearbody r.
  assert (Hnew : forall o, In o news -> next_id b1 <= ob_id o < next_id b1 + n).
  { intros o Ho. apply (in_map ob_id) in Ho. rewrite Hids in Ho.
    apply in_seq in Ho. lia. }
  rewrite List.Forall_forall in Hlt1, Hpar1, Hpar.
  exists e, news.
  split; [|split; [|split; [|split; [|split; [|split; [|split; [|split]]]]]]].
  - constructor; rewrite Hobj, ?Hnext.
    + apply List.Forall_app; split; apply List.Forall_forall; intros o Ho.
      * specialize (Hlt1 o Ho); lia.
      * specialize (Hnew o Ho); lia.
    + rewrite map_app, Hids. apply List.NoDup_app; [exact ND1 | apply seq_NoDup |].
      intros a Ha Hs. apply in_seq in Hs. apply in_map_iff in Ha.
      destruct Ha as (o & <- & Ho). specialize (Hlt1 o Ho). lia.
    + apply List.Forall_app; split; apply List.Forall_forall; intros o Ho p P.
      * destruct (Hpar1 o Ho p P); split; [lia | assumption].
      * rewrite (Hpar o Ho) in P. injection P as <-.
        specialize (Hnew o Ho). lia.
  - unfold container, objects_get in *. rewrite Hobj.
    destruct (find _ (objects b1)) as [o1|] eqn:F; [|discriminate].
    rewrite (find_app_some _ _ _ _ F). exact C1.
  - unfold children in *. rewrite Hobj, List.filter_app, Ch1. simpl.
    apply filter_all. apply List.Forall_forall; intros o Ho.
    apply is_child_of_iff; auto.
  - apply (f_equal (@length _)) in Hids.
    rewrite length_map, length_seq in Hids. exact Hids.
  - apply List.Forall_forall; intros o Ho. specialize (Hnew o Ho). lia.
  - exact Hpts.
  - intros e0 E0. destruct (Hfound e0 E0) as [-> En]. split; [reflexivity | lia].
  - intros E0. destruct (Hmissing E0) as (-> & En & o & Ho & Hid & Hd & Hp).
    split; [reflexivity|]. split; [lia|].
    exists o. rewrite Hobj. repeat split; auto. apply in_or_app; auto.
  - intros o Ho Hc Hin. rewrite Hobj, map_app in Hin.
    apply in_app_or in Hin. destruct Hin as [Hin | Hin].
    + exact (Hgone o Ho Hc Hin).
    + rewrite Hids in Hin. apply in_seq in Hin.
      destruct W as [Hlt _ _]. rewrite List.Forall_forall in Hlt.
      specialize (Hlt o Ho). lia.
Qed.





Lemma generate_from_heads (k : nat) :
  forall self, Forall (fun path : list vert => path !! 0%nat = Some (0, 0, 0)%R)
                      (fst (generate_from k self)).
Proof.
  induction k as [|k IH]; intros self; [constructor|].
  rewrite generate_from_S; simpl. constructor; [|apply IH].
  apply generate_walking_verts_head.
Qed.

(** C5: the first entry of the list [generate_walking_verts] returns is
    the origin, whatever the generator and the wander bounds, and so is
    the first point of every path of every batch. *)
Theorem first_point_is_origin (self : Operator) (pathLength : Z) (fresh : Random) :
  fst (generate_walking_verts self pathLength) !! 0%nat = Some (0, 0, 0)%R
  /\ Forall (fun path : list vert => path !! 0%nat = Some (0, 0, 0)%R)
            (generate self fresh).
Proof.
  split; [apply generate_walking_verts_head | apply generate_from_heads].
Qed.



(** In a scene where every object is visible, a run leaves under the
    container exactly
    [numCurves] objects, none of which was there before, and none of the
    earlier children is left in [bpy.data.objects].  A container that
    exists is kept and no other is made (the run makes [numCurves]
    objects, the curves); without one, a new empty is made first.  A
    second run, with whatever parameters, therefore keeps the container
    of the first, replaces every object the first put under it and
    leaves its own [numCurves] objects there. *)
Lemma clear_and_replace_all_visible (self : Operator) (fresh : Random) (b : Bpy) :
  wf_bpy b ->
  let r := snd (execute self fresh b) in
  let n := Z.to_nat (numCurves self) in
  exists e : nat,
    container r = Some e
    /\ length (children r e) = n
    /\ Forall (fun o => ~ In (ob_id o) (map ob_id (objects b))) (children r e)
    /\ (forall o, In o (objects b) -> is_child_of e o = true ->
                  ~ In (ob_id o) (map ob_id (objects r)))
    /\ (forall e0, container b = Some e0 -> e = e0 /\ next_id r = next_id b + n)
    /\ (container b = None ->
        e = next_id b /\ next_id r = S (next_id b) + n
        /\ exists o, In o (objects r) /\ ob_id o = e
                     /\ ob_data o = None /\ ob_parent o = None)
    /\ (forall (self2 : Operator) (fresh2 : Random),
          let r2 := snd (execute self2 fresh2 r) in
          let n2 := Z.to_nat (numCurves self2) in
          container r2 = Some e
          /\ next_id r2 = next_id r + n2
          /\ length (children r2 e) = n2
          /\ Forall (fun o => ~ In (ob_id o) (map ob_id (objects r)))
                    (children r2 e)
          /\ Forall (fun o => ~ In (ob_id o) (map ob_id (objects r2)))
                    (children r e)).
Proof.
  intros W r n.
  destruct (execute_spec self fresh b W)
    as (e & news & Wr & C & Ch & Hlen & Hnew & _ & Hfound & Hmissing & Hgone).
  fold r in Wr, C, Ch, Hfound, Hmissing, Hgone.
  assert (fresh_ids : forall (b0 : Bpy) (l : list Object),
             wf_bpy b0 -> Forall (fun o => next_id b0 <= ob_id o) l ->
             Forall (fun o => ~ In (ob_id o) (map ob_id (objects b0))) l).
  { intros b0 l [Hlt _ _] Hl. rewrite List.Forall_forall in Hlt.
    eapply List.Forall_impl; [|exact Hl]. simpl.
    intros o Ho Hin. apply in_map_iff in Hin. destruct Hin as (x & Ex & Hx).
    specialize (Hlt x Hx). lia. }
  exists e. rewrite Ch.
  split; [exact C|]. split; [exact Hlen|].
  split; [apply fresh_ids; assumption|].
  split; [exact Hgone|]. split; [exact Hfound|]. split; [exact Hmissing|].
  intros self2 fresh2 r2 n2.
  destruct (execute_spec self2 fresh2 r Wr)
    as (e2 & news2 & _ & C2 & Ch2 & Hlen2 & Hnew2 & _ & Hfound2 & _ & Hgone2).
  fold r2 in C2, Ch2, Hfound2, Hgone2.
  destruct (Hfound2 e C) as [-> Hn2].
  split; [exact C2|]. split; [exact Hn2|].
  rewrite Ch2. split; [exact Hlen2|].
  split; [apply fresh_ids; assumption|].
  apply List.Forall_forall; intros o Ho.
  rewrite <- Ch in Ho. unfold children in Ho. apply filter_In in Ho.
  destruct Ho as [Ho Hc]. exact (Hgone2 o Ho Hc).
Qed.

End ExecuteProofs.

(** ** The operator on the small host *)

Lemma rot_x_PI2 (v : Vector) :
  rot_x (PI / 2) v = mkVector (vx v) (- vz v) (vy v).
Proof. unfold rot_x; rewrite sin_PI2, cos_PI2; apply Vector_eq; simpl; ring. Qed.

Lemma rot_y_PI2 (v : Vector) :
  rot_y (PI / 2) v = mkVector (vz v) (vy v) (- vx v).
Proof. unfold rot_y; rewrite sin_PI2, cos_PI2; apply Vector_eq; simpl; ring. Qed.

Lemma rot_z_PI2 (v : Vector) :
  rot_z (PI / 2) v = mkVector (- vy v) (vx v) (vz v).
Proof. unfold rot_z; rewrite sin_PI2, cos_PI2; apply Vector_eq; simpl; ring. Qed.

Lemma spec_walk_body_eq `{Host} (st : walk_state) :
  let self := w_self st in
  let g := prng self in
  let moveVec' :=
    intrinsic_xyz (angle self (draw1 g)) (angle self (draw2 g))
                  (angle self (draw3 g)) (moveVec st) in
  let lastPos' := Vector_add (lastPos st) moveVec' in
  spec_walk_body st =
  {| w_self := set_prng self (after3 g);
     verts := verts st ++ [vert_of lastPos'];
     lastPos := lastPos';
     moveVec := moveVec' |}.
Proof.
  unfold spec_walk_body; rewrite !random_range_eq; reflexivity.
Qed.

(** Three points with every angle a quarter turn: what the code
    returns. *)
Lemma quarter_turn_walk :
  fst (generate_walking_verts (fixed_wander (PI / 2) 3) 3)
  = [(0, 0, 0); (1 / 10, 0, 0); (1 / 10, 0, - (1 / 10))]%R.
Proof.
  unfold generate_walking_verts.
  change (Z.to_nat ((if (3 <? 1)%Z then 1%Z else 3%Z) - 1)) with 2.
  cbn [for_range fst].
  rewrite !walk_body_eq; cbv zeta. cbn [w_self moveVec lastPos verts walk_init].
  rewrite !(angle_fixed _ (PI / 2)) by reflexivity.
  rewrite !Vector_rotate_extrinsic; unfold extrinsic_xyz.
  rewrite !rot_x_PI2, !rot_y_PI2, !rot_z_PI2.
  unfold vert_of, Vector_add; simpl.
  repeat (f_equal; try lra).
Qed.

(** The same walk with the specification's step. *)
Lemma quarter_turn_spec_walk :
  fst (spec_generate_walking_verts (fixed_wander (PI / 2) 3) 3)
  = [(0, 0, 0); (1 / 10, 0, 0); (1 / 10, 0, 1 / 10)]%R.
Proof.
  unfold spec_generate_walking_verts.
  change (Z.to_nat ((if (3 <? 1)%Z then 1%Z else 3%Z) - 1)) with 2.
  cbn [for_range fst].
  rewrite !spec_walk_body_eq; cbv zeta. cbn [w_self moveVec lastPos verts walk_init].
  rewrite !(angle_fixed _ (PI / 2)) by reflexivity.
  unfold intrinsic_xyz.
  rewrite !rot_x_PI2, !rot_y_PI2, !rot_z_PI2.
  unfold vert_of, Vector_add; simpl.
  repeat (f_equal; try lra).
Qed.

(** C6, as the specification words it (intrinsic composition, axis order
    X, Y, Z), fails: with both wander bounds a quarter turn the third
    point of the code's path is (0.1, 0, -0.1), that of the
    specification's walk is (0.1, 0, 0.1). *)
Lemma walk_is_not_intrinsic_xyz :
  ~ (forall (self : @Operator toy_host) (pathLength : Z),
        fst (generate_walking_verts self pathLength)
        = fst (spec_generate_walking_verts self pathLength)).
Proof.
  intros E. specialize (E (fixed_wander (PI / 2) 3) 3%Z).
  rewrite quarter_turn_walk, quarter_turn_spec_walk in E.
  injection E; intros; lra.
Qed.

Lemma toy_scene_wf : wf_bpy toy_scene.
Proof.
  constructor; simpl.
  - repeat constructor.
  - repeat constructor; simpl; intuition lia.
  - constructor; [intros p [=] | constructor; [|constructor]].
    intros p [=]; subst; simpl; lia.
Qed.





Lemma zero_wander_straight_line_witness :
  steps (fst (generate_walking_verts (fixed_wander 0 5) 5))
  = repeat (mkVector 0 0 (1 / 10)) 4.
Proof.
  exact (proj2 (proj2 (@zero_wander_straight_line toy_host (fixed_wander 0 5) 5
                         eq_refl eq_refl))).
Defined.

Lemma random_range_unvalidated_witness :
  (1 / 10 < fst (random_range toy_operator 2 (1 / 10)) <= 2)%R.
Proof.
  apply (proj2 (proj2 (@random_range_unvalidated toy_host toy_operator 2 (1 / 10)))).
  - unfold draw1, toy_operator; simpl; lra.
  - lra.
Defined.


(** * Further properties of the operator *)

Section WalkMore.
Context `{Host}.

Lemma for_range_add {S : Type} (f : S -> S) (a b : nat) (x : S) :
  for_range (a + b) f x = for_range b f (for_range a f x).
Proof.
  revert x; induction a as [|a IH]; intros x; simpl; [reflexivity | apply IH].
Qed.

Lemma for_range_after3 (k : nat) (g : Random) :
  for_range k after3 g = for_range (3 * k) after1 g.
Proof.
  revert g; induction k as [|k IH]; intros g; [reflexivity|].
  replace (3 * S k) with (3 + 3 * k) by lia.
  rewrite for_range_add. simpl for_range at 1. rewrite IH. reflexivity.
Qed.

Lemma walk_leaves_operator (self : Operator) (len : Z) :
  snd (generate_walking_verts self len)
  = set_prng self (for_range (Z.to_nat (Z.max len 1 - 1)) after3 (prng self)).
Proof.
  destruct (generate_walking_verts_self self len) as [g E].
  rewrite E. f_equal.
  assert (P : prng (snd (generate_walking_verts self len)) = g)
    by (rewrite E; reflexivity).
  rewrite <- P. unfold generate_walking_verts; cbn [snd].
  rewrite for_range_walk_prng. simpl.
  f_equal. destruct (Z.ltb_spec len 1); lia.
Qed.

(** X1: a path length of 1 or less gives the path of the one point
    (0, 0, 0), draws nothing and leaves the operator as it was. *)
Theorem walk_of_one_point (self : Operator) (len : Z) :
  (len <= 1)%Z ->
  generate_walking_verts self len = ([(0, 0, 0)%R], self).
Proof.
  intros Hlen. unfold generate_walking_verts.
  replace (Z.to_nat ((if (len <? 1)%Z then 1%Z else len) - 1)) with 0
    by (destruct (Z.ltb_spec len 1); lia).
  reflexivity.
Qed.

(** X2: a walk changes nothing of the operator but its generator, and
    takes exactly three draws from it for every point after the first:
    3 * (max(pathLength, 1) - 1) calls of [random()]. *)
Theorem walk_draw_count (self : Operator) (len : Z) :
  snd (generate_walking_verts self len)
  = set_prng self
      (for_range (3 * Z.to_nat (Z.max len 1 - 1)) after1 (prng self)).
Proof.
  rewrite walk_leaves_operator, for_range_after3. reflexivity.
Qed.

(** X3: with [min <= max] and a draw in [0, 1), the value
    [min + u * (max - min)] that [random_range] returns lies in the closed
    range from [min] to [max] (real-number model). *)
Theorem random_range_within (self : Operator) (lo hi : R) :
  (0 <= draw1 (prng self) < 1)%R -> (lo <= hi)%R ->
  (lo <= fst (random_range self lo hi) <= hi)%R.
Proof.
  intros [Hu0 Hu1] Hle. rewrite random_range_eq; simpl fst.
  split; nra.
Qed.

Lemma xyz_of_co_of (v : vert) : xyz_of (co_of v) = v.
Proof. destruct v as [[x y] z]; reflexivity. Qed.

(** X5: the vertices can be read back from the spline: its first
    [len(verts)] points are the vertices, in order, each with weight 1;
    the one point after them is not a vertex. *)
Theorem polyline_points_round_trip (verts : list vert) :
  map xyz_of (take (length verts) (polyline_points verts)) = verts
  /\ Forall (fun c : co4 => snd c = 1%R)
            (take (length verts) (polyline_points verts))
  /\ drop (length verts) (polyline_points verts) = [BPoint_default].
Proof.
  rewrite polyline_points_eq.
  replace (length verts) with (length (map co_of verts)) by apply length_map.
  rewrite take_app_length, drop_app_length.
  split; [|split; [|reflexivity]].
  - rewrite List.map_map. rewrite <- (List.map_id verts) at 2.
    apply List.map_ext; intros v; apply xyz_of_co_of.
  - apply List.Forall_forall; intros c Hc. apply in_map_iff in Hc.
    destruct Hc as ([[x y] z] & <- & _); reflexivity.
Qed.

End WalkMore.

(** ** How far a walk gets *)

Section WalkReach.
Context `{Host}.

Lemma dot_squared_bound (a b c x y z : R) :
  ((a * x + b * y + c * z) * (a * x + b * y + c * z)
   <= (a * a + b * b + c * c) * (x * x + y * y + z * z))%R.
Proof.
  pose proof (Rle_0_sqr (a * y - b * x)).
  pose proof (Rle_0_sqr (b * z - c * y)).
  pose proof (Rle_0_sqr (c * x - a * z)).
  unfold Rsqr in *. nra.
Qed.

(** A step of length [h] from a point within [K] of the origin ends
    within [K + h] of it. *)
Lemma length_squared_add_bound (p m : Vector) (K h : R) :
  (0 <= K)%R -> (0 <= h)%R ->
  (length_squared p <= K * K)%R -> length_squared m = (h * h)%R ->
  (length_squared (Vector_add p m) <= (K + h) * (K + h))%R.
Proof.
  destruct p as [a b c], m as [x y z]; unfold length_squared; simpl.
  intros HK Hh Hp Hm.
  pose proof (dot_squared_bound a b c x y z) as CS.
  assert (D : (a * x + b * y + c * z <= K * h)%R).
  { destruct (Rle_or_lt (a * x + b * y + c * z) (K * h)) as [|Hgt]; [assumption|].
    exfalso.
    assert ((K * h) * (K * h)
            < (a * x + b * y + c * z) * (a * x + b * y + c * z))%R
      by (apply Rmult_le_0_lt_compat; nra).
    assert ((a * a + b * b + c * c) * (x * x + y * y + z * z)
            <= (K * K) * (h * h))%R
      by (rewrite Hm; apply Rmult_le_compat_r; nra).
    nra. }
  nra.
Qed.

Lemma Vector_of_vert_of (v : Vector) : Vector_of (vert_of v) = v.
Proof. destruct v; reflexivity. Qed.

Lemma for_range_walk_reach (k : nat) :
  forall st : walk_state,
    at_lastPos st ->
    length_squared (moveVec st) = (1 / 10 * (1 / 10))%R ->
    (forall (i : nat) (p : vert), verts st !! i = Some p ->
       (length_squared (Vector_of p) <= INR i / 10 * (INR i / 10))%R) ->
    forall (i : nat) (p : vert),
      verts (for_range k walk_body st) !! i = Some p ->
      (length_squared (Vector_of p) <= INR i / 10 * (INR i / 10))%R.
Proof.
  induction k as [|k IH]; intros st Hl Hm Hb; simpl; [exact Hb|].
  apply IH.
  - apply walk_body_at_lastPos.
  - rewrite walk_body_eq; simpl. rewrite Vector_rotate_length_squared; exact Hm.
  - intros i p. rewrite walk_body_verts.
    intros Hi. apply lookup_snoc_Some in Hi.
    destruct Hi as [[_ Hi] | [Hi <-]]; [exact (Hb i p Hi)|].
    destruct Hl as (l & El).
    assert (Hlast : (length_squared (lastPos st)
                     <= INR (length l) / 10 * (INR (length l) / 10))%R).
    { rewrite <- (Vector_of_vert_of (lastPos st)).
      apply Hb. rewrite El. apply list_lookup_middle; reflexivity. }
    rewrite Vector_of_vert_of, walk_body_lastPos.
    assert (Ei : i = S (length l))
      by (rewrite Hi, El, length_app; simpl; lia).
    rewrite Ei, S_INR.
    replace ((INR (length l) + 1) / 10)%R with (INR (length l) / 10 + 1 / 10)%R
      by lra.
    apply length_squared_add_bound.
    + pose proof (pos_INR (length l)); lra.
    + lra.
    + exact Hlast.
    + rewrite walk_body_eq; simpl. rewrite Vector_rotate_length_squared; exact Hm.
Qed.

(** X4: the point of index [i] of a path lies within [i] steps of the
    origin, at a distance of at most 0.1 * i, whatever the generator and
    the wander bounds. *)
Theorem walk_within_reach (self : Operator) (len : Z) (i : nat) (p : vert) :
  fst (generate_walking_verts self len) !! i = Some p ->
  (Vector_length (Vector_of p) <= INR i / 10)%R.
Proof.
  intros Hp.
  assert (B : (length_squared (Vector_of p) <= INR i / 10 * (INR i / 10))%R).
  { unfold generate_walking_verts in Hp; cbn [fst] in Hp.
    revert Hp. apply for_range_walk_reach.
    - apply walk_init_at_lastPos.
    - unfold length_squared; simpl; lra.
    - intros j q Hq. cbn [verts walk_init] in Hq.
      apply list_lookup_singleton_Some in Hq. destruct Hq as [-> <-].
      unfold length_squared; simpl; lra. }
  unfold Vector_length.
  rewrite <- (sqrt_square (INR i / 10)) by (pose proof (pos_INR i); lra).
  apply sqrt_le_1_alt; exact B.
Qed.

End WalkReach.

(** ** More on a run of [execute] *)

Section ExecuteMore.
Context `{Host}.

Lemma execute_snd (self : Operator) (fresh : Random) (b : Bpy) :
  snd (execute self fresh b)
  = e_bpy (for_range (Z.to_nat (numCurves self))
             (execute_body (fst (prepare_empty b)))
             {| e_self := seed_prng self fresh;
                e_bpy := snd (prepare_empty b);
                e_curveCount := 0 |}).
Proof. unfold execute. destruct (prepare_empty b); reflexivity. Qed.

Lemma execute_fst (self : Operator) (fresh : Random) (b : Bpy) :
  fst (execute self fresh b)
  = e_self (for_range (Z.to_nat (numCurves self))
              (execute_body (fst (prepare_empty b)))
              {| e_self := seed_prng self fresh;
                 e_bpy := snd (prepare_empty b);
                 e_curveCount := 0 |}).
Proof. unfold execute. destruct (prepare_empty b); reflexivity. Qed.

Lemma execute_body_self (e : nat) (st : exec_state) :
  e_self (execute_body e st)
  = snd (generate_walking_verts (e_self st) (pathLength (e_self st))).
Proof.
  unfold execute_body.
  pose proof (generate_curve_spec (e_self st) (e_bpy st)
                (pathLength (e_self st)) (e_curveCount st)) as S.
  cbv zeta in S. destruct S as (o & c & _ & Hself & _).
  destruct (generate_curve _ _ _ _) as [[curve s] b']. exact Hself.
Qed.

Lemma execute_loop_self (e : nat) (k : nat) :
  forall st, e_self (for_range k (execute_body e) st)
             = snd (generate_from k (e_self st)).
Proof.
  induction k as [|k IH]; intros st; [reflexivity|].
  simpl for_range. rewrite IH, generate_from_S, execute_body_self. reflexivity.
Qed.

Lemma generate_from_draws (k : nat) :
  forall self,
    snd (generate_from k self)
    = set_prng self
        (for_range (k * Z.to_nat (Z.max (pathLength self) 1 - 1)) after3 (prng self)).
Proof.
  induction k as [|k IH]; intros self.
  - destruct self; reflexivity.
  - rewrite generate_from_S; cbn [snd].
    rewrite IH, walk_leaves_operator. cbn [pathLength set_prng prng].
    rewrite set_prng_set_prng.
    replace (S k * Z.to_nat (Z.max (pathLength self) 1 - 1))
      with (Z.to_nat (Z.max (pathLength self) 1 - 1)
            + k * Z.to_nat (Z.max (pathLength self) 1 - 1)) by lia.
    rewrite for_range_add. reflexivity.
Qed.

(** X6: a run leaves the operator with its five properties as they were
    and with the generator that [seed] made, advanced by exactly
    3 * numCurves * (max(pathLength, 1) - 1) draws; the scene has no part
    in it. *)
Theorem execute_draw_count (self : Operator) (fresh : Random) (b : Bpy) :
  fst (execute self fresh b)
  = set_prng self
      (for_range
         (3 * (Z.to_nat (numCurves self)
               * Z.to_nat (Z.max (pathLength self) 1 - 1)))
         after1 (Random_seed fresh (randomSeed self))).
Proof.
  rewrite execute_fst, execute_loop_self; cbn [e_self].
  rewrite generate_from_draws, for_range_after3. reflexivity.
Qed.

(** What [generate_curve] does to the rest of [bpy]. *)
Lemma generate_curve_full (self : Operator) (b : Bpy) (len cc : Z) :
  let r := generate_curve self b len cc in
  exists (o : Object) (c : Curve),
    fst (fst r) = next_id b
    /\ objects (snd r)
       = map (fun o => if Nat.eqb (ob_id o) (next_id b) then set_select true o else o)
             (objects b) ++ [o]
    /\ next_id (snd r) = S (next_id b)
    /\ ob_id o = next_id b
    /\ ob_select o = true
    /\ ob_data o = Some c
    /\ scene_objects (snd r) = scene_objects b ++ [next_id b]
    /\ scene_active (snd r) = scene_active b
    /\ (forall m, materials_get b "CurveMaterial" = Some m ->
          materials (snd r) = materials b /\ cu_materials c = [m])
    /\ (materials_get b "CurveMaterial" = None ->
          materials (snd r)
          = materials b ++ [new_name (materials b) "GeneratedCurveMaterial"]).
Proof.
  unfold generate_curve, materials_get.
  destruct (generate_walking_verts self len) as [vs s]; simpl.
  destruct (find _ (materials b)) eqn:M; simpl;
    (eexists; eexists; split; [reflexivity|];
     split; [rewrite map_app; simpl; rewrite Nat.eqb_refl; reflexivity|];
     repeat (split; [reflexivity|]); split;
     [intros m E; try discriminate; injection E as <-; split; reflexivity
     |intros E; try discriminate; reflexivity]).
Qed.

Lemma execute_body_full (e : nat) (st : exec_state) :
  Forall (fun o => ob_id o < next_id (e_bpy st)) (objects (e_bpy st)) ->
  let b := e_bpy st in
  let b' := e_bpy (execute_body e st) in
  exists (o : Object) (c : Curve),
    objects b' = objects b ++ [o]
    /\ next_id b' = S (next_id b)
    /\ ob_id o = next_id b
    /\ ob_select o = true
    /\ ob_parent o = Some e
    /\ ob_data o = Some c
    /\ scene_objects b' = scene_objects b ++ [next_id b]
    /\ scene_active b' = scene_active b
    /\ (forall m, materials_get b "CurveMaterial" = Some m ->
          materials b' = materials b /\ cu_materials c = [m])
    /\ (materials_get b "CurveMaterial" = None ->
          materials b'
          = materials b ++ [new_name (materials b) "GeneratedCurveMaterial"]).
Proof.
  intros Hlt b b'. unfold b', execute_body.
  pose proof (generate_curve_full (e_self st) (e_bpy st)
                (pathLength (e_self st)) (e_curveCount st)) as S.
  cbv zeta in S.
  destruct S as (o & c & Hid & Hobj & Hnext & Ho & Hsel & Hd & Hsc & Hact & Hm1 & Hm2).
  destruct (generate_curve (e_self st) (e_bpy st) (pathLength (e_self st))
                           (e_curveCount st)) as [[curve s] b1].
  simpl in Hid, Hobj, Hnext, Hsc, Hact, Hm1, Hm2. subst curve.
  exists (set_parent (Some e) o), c. simpl. fold b.
  split.
  { rewrite Hobj, map_app.
    rewrite (update_object_fresh (objects (e_bpy st)) _ (set_select true)) by exact Hlt.
    rewrite (update_object_fresh (objects (e_bpy st)) _ (set_parent (Some e))) by exact Hlt.
    simpl. rewrite Ho, Nat.eqb_refl. reflexivity. }
  repeat (split; [assumption || reflexivity|]).
  exact Hm2.
Qed.

Lemma new_material_name_ne (taken : list string) :
  (forall taken, unique_name taken "GeneratedCurveMaterial" <> "CurveMaterial"%string) ->
  String.eqb "CurveMaterial" (new_name taken "GeneratedCurveMaterial") = false.
Proof.
  intros Hu. unfold new_name. destruct (existsb _ taken); [|reflexivity].
  apply String.eqb_neq. intros E. exact (Hu taken (eq_sym E)).
Qed.

(** The loop of [execute] and the rest of [bpy]: selection, scene,
    active object and materials. *)
Lemma execute_loop_full (e : nat) (k : nat) :
  forall st,
    Forall (fun o => ob_id o < next_id (e_bpy st)) (objects (e_bpy st)) ->
    let b := e_bpy st in
    let fin := e_bpy (for_range k (execute_body e) st) in
    exists news,
      objects fin = objects b ++ news
      /\ Forall (fun o => ob_select o = true /\ ob_parent o = Some e
                          /\ In (ob_id o) (scene_objects fin)) news
      /\ scene_active fin = scene_active b
      /\ (forall x, In x (scene_objects b) -> In x (scene_objects fin))
      /\ (forall m, materials_get b "CurveMaterial" = Some m ->
            materials fin = materials b
            /\ Forall (fun o => exists c, ob_data o = Some c /\ cu_materials c = [m])
                      news)
      /\ ((forall taken,
              unique_name taken "GeneratedCurveMaterial" <> "CurveMaterial"%string) ->
          materials_get b "CurveMaterial" = None ->
          length (materials fin) = length (materials b) + k
          /\ materials_get fin "CurveMaterial" = None).
Proof.
  induction k as [|k IH]; intros st Hlt; cbv zeta.
  - exists []; simpl. rewrite app_nil_r, Nat.add_0_r.
    repeat split; auto.
  - destruct (execute_body_full e st Hlt)
      as (o & c & Hobj & Hnext & Ho & Hsel & Hp & Hd & Hsc & Hact & Hm1 & Hm2).
    assert (Hlt' : Forall (fun o => ob_id o < next_id (e_bpy (execute_body e st)))
                          (objects (e_bpy (execute_body e st)))).
    { rewrite Hobj, Hnext. apply List.Forall_app; split.
      - eapply List.Forall_impl; [|exact Hlt]. simpl; intros; lia.
      - constructor; [lia | constructor]. }
    destruct (IH (execute_body e st) Hlt')
      as (news & Hobj' & Hnews & Hact' & Hmono & Hmat1 & Hmat2).
    exists (o :: news). simpl for_range.
    split; [rewrite Hobj', Hobj, <- app_assoc; reflexivity|].
    split.
    { constructor; [|exact Hnews].
      split; [exact Hsel|]. split; [exact Hp|].
      apply Hmono. rewrite Hsc, Ho. apply in_or_app; right; left; reflexivity. }
    split; [rewrite Hact', Hact; reflexivity|].
    split.
    { intros x Hx. apply Hmono. rewrite Hsc. apply in_or_app; left; exact Hx. }
    split.
    { intros m Hm. destruct (Hm1 m Hm) as [Em Ec].
      assert (Hm' : materials_get (e_bpy (execute_body e st)) "CurveMaterial" = Some m)
        by (unfold materials_get in *; rewrite Em; exact Hm).
      destruct (Hmat1 m Hm') as [Em' Hall].
      split; [rewrite Em', Em; reflexivity|].
      constructor; [exists c; split; assumption | exact Hall]. }
    intros Hu Hm. specialize (Hm2 Hm).
    assert (Hm' : materials_get (e_bpy (execute_body e st)) "CurveMaterial" = None).
    { unfold materials_get in *. rewrite Hm2, find_app_none by exact Hm.
      cbn [find]. rewrite new_material_name_ne by exact Hu. reflexivity. }
    destruct (Hmat2 Hu Hm') as [El En].
    split; [|exact En].
    rewrite El, Hm2, length_app. simpl. lia.
Qed.

Lemma select_each_rest (cs : list Object) :
  forall b0,
    let b1 := fold_left
                (fun b child => update_object b (ob_id child) (set_select true))
                cs b0 in
    materials b1 = materials b0 /\ scene_objects b1 = scene_objects b0.
Proof.
  induction cs as [|c cs IH]; intros b0; cbv zeta; [split; reflexivity|].
  simpl fold_left.
  destruct (IH (update_object b0 (ob_id c) (set_select true))) as [E1 E2].
  rewrite E1, E2; split; reflexivity.
Qed.

(** The first half of [execute] and the rest of [bpy]. *)
Lemma prepare_empty_rest (b : Bpy) :
  scene_active (snd (prepare_empty b)) = Some (fst (prepare_empty b))
  /\ materials (snd (prepare_empty b)) = materials b
  /\ (container b = None ->
      In (fst (prepare_empty b)) (scene_objects (snd (prepare_empty b)))).
Proof.
  unfold prepare_empty, container.
  destruct (objects_get b "RandomWalkingSplines") as [e0|]; simpl.
  - split; [reflexivity|]. split; [|discriminate].
    apply (select_each_rest (children (select_all_DESELECT b) e0)
                            (select_all_DESELECT b)).
  - split; [reflexivity|]. split; [reflexivity|].
    intros _. apply in_or_app; right; left; reflexivity.
Qed.




(** A run, seen from the scene it started in: what stays of [bpy], what
    is added, under which container. *)
Lemma execute_scene (self : Operator) (fresh : Random) (b : Bpy) :
  wf_bpy b ->
  let r := snd (execute self fresh b) in
  let e := fst (prepare_empty b) in
  let b1 := snd (prepare_empty b) in
  exists news,
    objects r = objects b1 ++ news
    /\ container r = Some e
    /\ children r e = news
    /\ Forall (fun o => ob_select o = true /\ ob_parent o = Some e
                        /\ In (ob_id o) (scene_objects r)) news
    /\ scene_active r = Some e
    /\ (container b = None -> In e (scene_objects r))
    /\ (forall m, materials_get b "CurveMaterial" = Some m ->
          materials r = materials b
          /\ Forall (fun o => exists c, ob_data o = Some c /\ cu_materials c = [m])
                    news)
    /\ ((forall taken,
            unique_name taken "GeneratedCurveMaterial" <> "CurveMaterial"%string) ->
        materials_get b "CurveMaterial" = None ->
        length (materials r) = length (materials b) + Z.to_nat (numCurves self)
        /\ materials_get r "CurveMaterial" = None).
Proof.
  intros W r e b1.
  pose proof (prepare_empty_spec b W) as P. cbv zeta in P.
  fold e in P. fold b1 in P.
  destruct P as (W1 & C1 & Ch1 & _).
  destruct (prepare_empty_rest b) as (Hact & Hmat & Hlink).
  fold e in Hact, Hlink. fold b1 in Hact, Hmat, Hlink.
  pose proof W1 as [Hlt1 _ _].
  pose proof (execute_loop_full e (Z.to_nat (numCurves self))
                {| e_self := seed_prng self fresh; e_bpy := b1; e_curveCount := 0 |}
                Hlt1) as L.
  cbv zeta in L. cbn [e_bpy] in L.
  unfold r. rewrite execute_snd. fold e. fold b1.
  destruct L as (news & Hobj & Hnews & Hact' & Hmono & Hm1 & Hm2).
  exists news.
  split; [exact Hobj|].
  split.
  { unfold container, objects_get in *. rewrite Hobj.
    destruct (find _ (objects b1)) as [o1|] eqn:F; [|discriminate].
    rewrite (find_app_some _ _ _ _ F). exact C1. }
  split.
  { unfold children in *. rewrite Hobj, List.filter_app, Ch1. simpl.
    apply filter_all. eapply List.Forall_impl; [|exact Hnews].
    simpl. intros o (_ & Hp & _). apply is_child_of_iff; exact Hp. }
  split; [exact Hnews|].
  split; [rewrite Hact'; exact Hact|].
  split; [intros Cn; apply Hmono, Hlink, Cn|].
  split.
  { intros m Hm. unfold materials_get in *. rewrite <- Hmat in Hm.
    destruct (Hm1 m Hm) as [E Hall]. split; [rewrite E; exact Hmat | exact Hall]. }
  intros Hu Hm. unfold materials_get in Hm. rewrite <- Hmat in Hm.
  destruct (Hm2 Hu Hm) as [El En]. split; [rewrite El, Hmat; reflexivity | exact En].
Qed.


(** X8: a run keeps [bpy.data.objects] well-formed: identities stay
    unique and below the next one to hand out, and every parent is an
    earlier object other than the child. *)
Theorem execute_keeps_wf (self : Operator) (fresh : Random) (b : Bpy) :
  wf_bpy b -> wf_bpy (snd (execute self fresh b)).
Proof.
  intros W. destruct (execute_spec self fresh b W) as (e & news & Wr & _).
  exact Wr.
Qed.



(** X11: when no material named "CurveMaterial" exists (and Blender
    never gives that name to a material asked to be called
    "GeneratedCurveMaterial"), a run makes one material for each curve:
    [bpy.data.materials] grows by [numCurves], and there is still no
    "CurveMaterial" afterwards. *)
Theorem execute_makes_a_material_per_curve
    (self : Operator) (fresh : Random) (b : Bpy) :
  (forall taken,
      unique_name taken "GeneratedCurveMaterial" <> "CurveMaterial"%string) ->
  wf_bpy b -> materials_get b "CurveMaterial" = None ->
  let r := snd (execute self fresh b) in
  length (materials r) = length (materials b) + Z.to_nat (numCurves self)
  /\ materials_get r "CurveMaterial" = None.
Proof.
  intros Hu W Hm r.
  destruct (execute_scene self fresh b W)
    as (news & _ & _ & _ & _ & _ & _ & _ & Hm2).
  exact (Hm2 Hu Hm).
Qed.



Lemma doomed_is_child (b : Bpy) (e : nat) (o : Object) :
  wf_bpy b -> In o (objects b) -> doomed b e o = is_child_of e o.
Proof.
  intros [_ ND _] Ho.
  destruct (is_child_of e o) eqn:Ch; [apply doomed_child; assumption|].
  destruct (doomed b e o) eqn:D; [|reflexivity].
  apply doomed_inv in D. destruct D as (c & Hc & Hch & Hid).
  assert (c = o) by (eapply NoDup_map_inj; eauto). subst c. congruence.
Qed.

(** In a scene where every object is visible, the objects after a run
    are as many as before, less the earlier children, plus [numCurves];
    without a container before the run, plus one for the new
    container. *)
Lemma object_count_all_visible (self : Operator) (fresh : Random) (b : Bpy) :
  wf_bpy b ->
  let r := snd (execute self fresh b) in
  let n := Z.to_nat (numCurves self) in
  (forall e0, container b = Some e0 ->
     length (objects r) + length (children b e0) = length (objects b) + n)
  /\ (container b = None -> length (objects r) = S (length (objects b)) + n).
Proof.
  intros W r n.
  destruct (execute_scene self fresh b W) as (news & Hobj & C & Ch & _).
  destruct (execute_spec self fresh b W) as (e' & news' & _ & C' & Ch' & Hlen & _).
  fold r in Hobj, C, Ch, C', Ch'. fold n in Hlen.
  rewrite C in C'. injection C' as <-. rewrite Ch in Ch'. subst news'.
  rewrite Hobj, length_app, Hlen. split.
  - intros e0 C0.
    destruct (prepare_found b e0 C0) as (G & _ & Hobj1 & _).
    rewrite Hobj1, length_map.
    rewrite (filter_ext_in (fun o => negb (doomed b e0 o))
                           (fun o => negb (is_child_of e0 o)))
      by (intros o Ho; rewrite doomed_is_child by assumption; reflexivity).
    pose proof (filter_length (is_child_of e0) (objects b)) as L.
    unfold children. lia.
  - intros C0. destruct W as [Hlt _ _].
    destruct (prepare_missing b Hlt C0) as (x & _ & Hobj1 & _).
    rewrite Hobj1, length_app. simpl. lia.
Qed.

End ExecuteMore.

(** ** The further properties on the small host *)

Lemma walk_of_one_point_witness :
  generate_walking_verts toy_operator 0 = ([(0, 0, 0)%R], toy_operator).
Proof.
  apply (@walk_of_one_point toy_host toy_operator 0). lia.
Defined.

Lemma random_range_within_witness :
  (1 / 10 <= fst (random_range toy_operator (1 / 10) 2) <= 2)%R.
Proof.
  apply (@random_range_within toy_host toy_operator (1 / 10) 2).
  - unfold draw1, toy_operator; simpl; lra.
  - lra.
Defined.

Lemma walk_within_reach_witness :
  (Vector_length (Vector_of (1 / 10, 0, - (1 / 10))%R) <= INR 2 / 10)%R.
Proof.
  apply (@walk_within_reach toy_host (fixed_wander (PI / 2) 3) 3 2).
  rewrite quarter_turn_walk. reflexivity.
Defined.

Lemma toy_container : container toy_scene = Some 0.
Proof. reflexivity. Qed.

Lemma execute_keeps_wf_witness :
  wf_bpy (snd (@execute toy_host toy_operator 0 toy_scene)).
Proof.
  exact (@execute_keeps_wf toy_host toy_operator 0 toy_scene toy_scene_wf).
Defined.




Lemma toy_material_names (taken : list string) :
  @unique_name toy_host taken "GeneratedCurveMaterial" <> "CurveMaterial"%string.
Proof. simpl; discriminate. Qed.

Lemma execute_makes_a_material_per_curve_witness :
  length (materials (snd (@execute toy_host toy_operator 0 toy_scene))) = 30.
Proof.
  exact (proj1 (@execute_makes_a_material_per_curve toy_host toy_operator 0
                  toy_scene toy_material_names toy_scene_wf eq_refl)).
Defined.




(** * Hidden objects *)

Section HiddenObjects.
Context `{Host}.

Lemma select_all_DESELECT_all_visible (hide : nat -> bool) (b : Bpy) :
  (forall i, hide i = false) ->
  select_all_DESELECT_visible hide b = select_all_DESELECT b.
Proof.
  intros Hh. unfold select_all_DESELECT_visible, select_all_DESELECT.
  f_equal. apply List.map_ext; intros o. rewrite Hh; reflexivity.
Qed.

Lemma object_delete_all_visible (hide : nat -> bool) (b : Bpy) :
  (forall i, hide i = false) ->
  object_delete_visible hide b = object_delete b.
Proof.
  intros Hh. unfold object_delete_visible, object_delete. cbv zeta.
  assert (E1 : List.filter (fun o => ob_select o && negb (hide (ob_id o))) (objects b)
               = List.filter ob_select (objects b)).
  { apply filter_ext; intros o. rewrite Hh; simpl. apply andb_true_r. }
  assert (E2 : List.filter (fun o => negb (ob_select o && negb (hide (ob_id o))))
                           (objects b)
               = List.filter (fun o => negb (ob_select o)) (objects b)).
  { apply filter_ext; intros o. rewrite Hh; simpl. rewrite andb_true_r; reflexivity. }
  rewrite E1, E2. reflexivity.
Qed.

Lemma prepare_empty_all_visible (hide : nat -> bool) (b : Bpy) :
  (forall i, hide i = false) ->
  prepare_empty_visible hide b = prepare_empty b.
Proof.
  intros Hh. unfold prepare_empty_visible, prepare_empty.
  destruct (objects_get b "RandomWalkingSplines"); [|reflexivity].
  rewrite select_all_DESELECT_all_visible, object_delete_all_visible by exact Hh.
  reflexivity.
Qed.

(** With nothing hidden, [execute_visible] is [execute]. *)
Lemma execute_visible_all_visible
    (hide : nat -> bool) (self : Operator) (fresh : Random) (b : Bpy) :
  (forall i, hide i = false) ->
  execute_visible hide self fresh b = execute self fresh b.
Proof.
  intros Hh. unfold execute_visible, execute.
  rewrite prepare_empty_all_visible by exact Hh. reflexivity.
Qed.

Lemma hidden_child_scene_wf : wf_bpy hidden_child_scene.
Proof.
  constructor; simpl.
  - repeat constructor.
  - repeat constructor; simpl; intuition lia.
  - constructor; [intros p [=] | constructor; [|constructor]].
    intros p [=]; subst; simpl; lia.
Qed.

(** The first half of [execute] on the scene with the hidden cube: the
    cube is selected and stays. *)
Lemma prepare_hidden_child :
  prepare_empty_visible hide_cube hidden_child_scene
  = (0,
     {| objects :=
          [ {| ob_id := 0; ob_name := "RandomWalkingSplines"; ob_data := None;
               ob_parent := None; ob_select := true |};
            {| ob_id := 1; ob_name := "Cube"; ob_data := None;
               ob_parent := Some 0; ob_select := true |} ];
        curves := [];
        materials := [];
        scene_objects := [0; 1];
        scene_active := Some 0;
        next_id := 2 |}).
Proof. reflexivity. Qed.

(** C3, where the code parts from it: the scene holds the container and
    a hidden object "Cube" under it.  [execute] selects the cube, but
    [bpy.ops.object.delete()] takes visible objects only: when the run
    returns, the cube is still under the container, which holds
    [numCurves + 1] objects and not [numCurves], for every operator. *)
Theorem execute_leaves_hidden_child (self : Operator) (fresh : Random) :
  let r := snd (execute_visible hide_cube self fresh hidden_child_scene) in
  let cube := {| ob_id := 1; ob_name := "Cube"; ob_data := None;
                 ob_parent := Some 0; ob_select := true |} in
  wf_bpy hidden_child_scene
  /\ container hidden_child_scene = Some 0
  /\ map ob_name (children hidden_child_scene 0) = ["Cube"%string]
  /\ container r = Some 0
  /\ In cube (children r 0)
  /\ length (children r 0) = S (Z.to_nat (numCurves self)).
Proof.
  intros r cube.
  split; [exact hidden_child_scene_wf|].
  split; [reflexivity|]. split; [reflexivity|].
  pose (b1 := snd (prepare_empty_visible hide_cube hidden_child_scene)).
  pose (st := {| e_self := seed_prng self fresh; e_bpy := b1; e_curveCount := 0 |}).
  assert (Er : r = e_bpy (for_range (Z.to_nat (numCurves self)) (execute_body 0) st)).
  { unfold r, execute_visible, st, b1. rewrite prepare_hidden_child. reflexivity. }
  assert (Eb : objects b1 = [set_select true (set_select false
                                {| ob_id := 0; ob_name := "RandomWalkingSplines";
                                   ob_data := None; ob_parent := None;
                                   ob_select := false |}); cube]).
  { unfold b1. rewrite prepare_hidden_child. reflexivity. }
  assert (Hlt : Forall (fun o => ob_id o < next_id (e_bpy st)) (objects (e_bpy st))).
  { cbn [e_bpy st]. rewrite Eb. unfold b1. rewrite prepare_hidden_child.
    simpl. repeat constructor. }
  destruct (execute_loop_spec 0 (Z.to_nat (numCurves self)) st Hlt)
    as (news & Hobj & _ & _ & Hids & Hpar & _).
  cbn [e_bpy st] in Hobj. rewrite <- Er, Eb in Hobj.
  clearbody r. clear Er.
  assert (Hch : children r 0 = cube :: news).
  { unfold children. rewrite Hobj.
    change (List.filter (is_child_of 0) (?a :: ?c :: news))
      with (List.filter (is_child_of 0) ([a; c] ++ news)).
    rewrite List.filter_app. simpl List.filter at 1. simpl app.
    f_equal. apply filter_all.
    eapply List.Forall_impl; [|exact Hpar].
    intros o Hp; apply is_child_of_iff; exact Hp. }
  rewrite Hch.
  split.
  { unfold container, objects_get. rewrite Hobj. reflexivity. }
  split; [left; reflexivity|].
  simpl. f_equal.
  apply (f_equal (@length _)) in Hids.
  rewrite length_map, length_seq in Hids. exact Hids.
Qed.

End HiddenObjects.

(** ** A run in a scene where nothing is hidden *)

Section VisibleScenes.
Context `{Host}.

Lemma selected_after_marking (cs : list Object) (l : list Object) :
  map ob_id
    (List.filter ob_select
       (map (fun o => if existsb (fun c => Nat.eqb (ob_id o) (ob_id c)) cs
                      then set_select true o else o)
            (map (set_select false) l)))
  = map ob_id
      (List.filter (fun o => existsb (fun c => Nat.eqb (ob_id o) (ob_id c)) cs) l).
Proof.
  induction l as [|o l IH]; [reflexivity|].
  simpl. destruct (existsb _ cs); simpl; rewrite IH; reflexivity.
Qed.

(** The container is there: what is left of each object that stays. *)
Lemma prepare_found_parent (b : Bpy) (e : nat) :
  container b = Some e ->
  exists G : Object -> Object,
    objects (snd (prepare_empty b))
    = map G (List.filter (fun o => negb (doomed b e o)) (objects b))
    /\ forall o,
         ob_id (G o) = ob_id o /\ ob_name (G o) = ob_name o
         /\ ob_data (G o) = ob_data o
         /\ ob_parent (G o)
            = parent_after (map ob_id (List.filter (doomed b e) (objects b))) o.
Proof.
  unfold container, prepare_empty; intros ->.
  destruct (select_each_objects (children (select_all_DESELECT b) e)
                                (select_all_DESELECT b)) as [E N].
  cbv zeta in E, N. simpl.
  rewrite E. simpl objects.
  rewrite (kept_after_select (children (select_all_DESELECT b) e)).
  rewrite (selected_after_marking (children (select_all_DESELECT b) e)).
  rewrite !List.map_map.
  eexists; split; [reflexivity|].
  intros o; unfold parent_after, doomed; simpl.
  destruct (ob_parent o) as [p|] eqn:P; simpl.
  - destruct (existsb (Nat.eqb p) _); simpl;
      destruct (Nat.eqb (ob_id o) e); simpl; auto.
  - destruct (Nat.eqb (ob_id o) e); simpl; auto.
Qed.

Lemma deleted_ids_found (b : Bpy) (e : nat) :
  wf_bpy b -> container b = Some e ->
  map ob_id (List.filter (doomed b e) (objects b)) = deleted_ids b.
Proof.
  intros W C. unfold deleted_ids, children. rewrite C.
  f_equal. apply filter_ext_in; intros o Ho. apply doomed_is_child; assumption.
Qed.

Lemma parent_after_nil (o : Object) : parent_after [] o = ob_parent o.
Proof. unfold parent_after. destruct (ob_parent o); reflexivity. Qed.

(** X7: in a scene where nothing is hidden, a run never removes an
    object that is not a child of the container: such an object is still
    in [bpy.data.objects] afterwards with its identity, name and data,
    and with its parent, unless the parent was one of the deleted
    children of the container, in which case it has none. *)
Theorem execute_keeps_other_objects
    (hide : nat -> bool) (self : Operator) (fresh : Random) (b : Bpy)
    (o : Object) :
  (forall i, hide i = false) ->
  wf_bpy b -> In o (objects b) ->
  (forall e0, container b = Some e0 -> is_child_of e0 o = false) ->
  exists o',
    In o' (objects (snd (execute_visible hide self fresh b)))
    /\ ob_id o' = ob_id o /\ ob_name o' = ob_name o /\ ob_data o' = ob_data o
    /\ ob_parent o' = parent_after (deleted_ids b) o.
Proof.
  intros Hh W Ho Hnc.
  rewrite (execute_visible_all_visible hide self fresh b Hh).
  destruct (execute_scene self fresh b W) as (news & Hobj & _).
  rewrite Hobj.
  assert (K : exists o',
             In o' (objects (snd (prepare_empty b)))
             /\ ob_id o' = ob_id o /\ ob_name o' = ob_name o
             /\ ob_data o' = ob_data o
             /\ ob_parent o' = parent_after (deleted_ids b) o).
  { destruct (container b) as [e0|] eqn:C.
    - destruct (prepare_found_parent b e0 C) as (G & Hobj1 & HG).
      exists (G o). destruct (HG o) as (Ei & En & Ed & Ep).
      rewrite (deleted_ids_found b e0 W C) in Ep.
      split; [|auto].
      rewrite Hobj1. apply in_map, filter_In; split; [exact Ho|].
      rewrite doomed_is_child by assumption.
      rewrite (Hnc e0 eq_refl); reflexivity.
    - pose proof W as [Hlt _ _].
      destruct (prepare_missing b Hlt C) as (x & _ & Hobj1 & _).
      exists o; split; [rewrite Hobj1; apply in_or_app; left; exact Ho|].
      unfold deleted_ids; rewrite C. rewrite parent_after_nil. auto. }
  destruct K as (o' & Hin & T). exists o'; split; [|exact T].
  apply in_or_app; left; exact Hin.
Qed.

(** X14: in a scene where nothing is hidden, a run deletes the children
    of the container and nothing else, and adds the curves and nothing
    else: the objects afterwards are as many as before, less the earlier
    children, plus [numCurves]; without a container before the run, plus
    one for the new container. *)
Theorem execute_object_count
    (hide : nat -> bool) (self : Operator) (fresh : Random) (b : Bpy) :
  (forall i, hide i = false) ->
  wf_bpy b ->
  let r := snd (execute_visible hide self fresh b) in
  let n := Z.to_nat (numCurves self) in
  (forall e0, container b = Some e0 ->
     length (objects r) + length (children b e0) = length (objects b) + n)
  /\ (container b = None -> length (objects r) = S (length (objects b)) + n).
Proof.
  intros Hh W. cbv zeta.
  rewrite (execute_visible_all_visible hide self fresh b Hh).
  exact (object_count_all_visible self fresh b W).
Qed.

(** X15: in a scene where nothing is hidden, regeneration is
    clear-and-replace: the container is kept, or made when there is
    none; every earlier child leaves [bpy.data.objects]; exactly
    [numCurves] new objects are under the container; and a second run
    replaces those of the first by its own. *)
Theorem execute_visible_clear_and_replace
    (hide : nat -> bool) (self : Operator) (fresh : Random) (b : Bpy) :
  (forall i, hide i = false) ->
  wf_bpy b ->
  let r := snd (execute_visible hide self fresh b) in
  let n := Z.to_nat (numCurves self) in
  exists e : nat,
    container r = Some e
    /\ length (children r e) = n
    /\ Forall (fun o => ~ In (ob_id o) (map ob_id (objects b))) (children r e)
    /\ (forall o, In o (objects b) -> is_child_of e o = true ->
                  ~ In (ob_id o) (map ob_id (objects r)))
    /\ (forall e0, container b = Some e0 -> e = e0 /\ next_id r = next_id b + n)
    /\ (container b = None ->
        e = next_id b /\ next_id r = S (next_id b) + n
        /\ exists o, In o (objects r) /\ ob_id o = e
                     /\ ob_data o = None /\ ob_parent o = None)
    /\ (forall (self2 : Operator) (fresh2 : Random),
          let r2 := snd (execute_visible hide self2 fresh2 r) in
          let n2 := Z.to_nat (numCurves self2) in
          container r2 = Some e
          /\ next_id r2 = next_id r + n2
          /\ length (children r2 e) = n2
          /\ Forall (fun o => ~ In (ob_id o) (map ob_id (objects r)))
                    (children r2 e)
          /\ Forall (fun o => ~ In (ob_id o) (map ob_id (objects r2)))
                    (children r e)).
Proof.
  intros Hh W. cbv zeta.
  rewrite (execute_visible_all_visible hide self fresh b Hh).
  destruct (clear_and_replace_all_visible self fresh b W)
    as (e & C & L & F1 & F2 & F3 & F4 & F5).
  exists e.
  split; [exact C|]. split; [exact L|]. split; [exact F1|].
  split; [exact F2|]. split; [exact F3|]. split; [exact F4|].
  intros self2 fresh2.
  rewrite (execute_visible_all_visible hide self2 fresh2 _ Hh).
  exact (F5 self2 fresh2).
Qed.

End VisibleScenes.

Lemma lamp_scene_wf : wf_bpy lamp_scene.
Proof.
  constructor; simpl.
  - repeat constructor.
  - repeat constructor; simpl; intuition lia.
  - repeat (constructor; [intros p [=]; subst; simpl; lia|]). constructor.
Qed.

Lemma execute_keeps_other_objects_witness :
  exists o',
    In o' (objects (snd (@execute_visible toy_host (fun _ => false)
                           toy_operator 0 lamp_scene)))
    /\ ob_name o' = "Bulb"%string /\ ob_parent o' = Some 2.
Proof.
  destruct (@execute_keeps_other_objects toy_host (fun _ => false)
              toy_operator 0 lamp_scene
              {| ob_id := 3; ob_name := "Bulb"; ob_data := None;
                 ob_parent := Some 2; ob_select := false |})
    as (o' & Hin & _ & Hname & _ & Hp).
  - reflexivity.
  - exact lamp_scene_wf.
  - simpl; tauto.
  - intros e0 [= <-]; reflexivity.
  - exists o'; split; [exact Hin|]. split; [exact Hname | exact Hp].
Defined.

Lemma execute_object_count_witness :
  length (objects (snd (@execute_visible toy_host (fun _ => false)
                          toy_operator 0 toy_scene))) + 1
  = 2 + 30.
Proof.
  exact (proj1 (@execute_object_count toy_host (fun _ => false) toy_operator 0
                  toy_scene (fun _ => eq_refl) toy_scene_wf) 0 toy_container).
Defined.

Lemma execute_visible_clear_and_replace_witness :
  exists e : nat,
    container (snd (@execute_visible toy_host (fun _ => false)
                      toy_operator 0 toy_scene)) = Some e
    /\ length (children (snd (@execute_visible toy_host (fun _ => false)
                                toy_operator 0 toy_scene)) e) = 30.
Proof.
  destruct (@execute_visible_clear_and_replace toy_host (fun _ => false)
              toy_operator 0 toy_scene (fun _ => eq_refl) toy_scene_wf)
    as (e & C & L & _).
  exists e; split; [exact C | exact L].
Defined.
